(** * fastcoref: token alignment and batch caching

    A shallow embedding of [fastcoref/utilities/coref_dataset.py] and the
    properties its specification states about it.

    Layout: Python values, exceptions and sequence access; the aligner
    ([add_speaker_information], [_tokenize]); record normalisation
    ([prepare_for_encode]); the batch cache ([create_batches]); then the
    theorems. *)

From Stdlib Require Import ZArith Lia.
From stdpp Require Import base list strings gmap pretty.

Open Scope string_scope.
Open Scope list_scope.
Open Scope nat_scope.

(** ** Python values, exceptions and sequence access *)

(** The exceptions that the embedded functions can raise. [OtherError] stands
    for any exception class that is none of the named ones (an I/O failure of
    the persistence layer, say). *)
Inductive exn :=
  | IndexError
  | AssertionError
  | ValueError
  | KeyError
  | NotImplementedError
  | FileNotFoundError
  | OtherError (name : string).

#[global] Instance exn_eq_dec : EqDecision exn.
Proof. solve_decision. Defined.

(** The outcome of a computation that may raise. *)
Inductive result (A : Type) :=
  | Ok (a : A)
  | Raise (e : exn).
Arguments Ok {A} a.
Arguments Raise {A} e.

Definition rbind {A B} (r : result A) (k : A → result B) : result B :=
  match r with
  | Ok a => k a
  | Raise e => Raise e
  end.

Notation "'let*' x ':=' r 'in' k" := (rbind r (fun x => k))
  (at level 10, x pattern, r at level 100, k at level 200).

(** A comprehension [[f x for x in l]] whose body may raise: elements are
    evaluated left to right and the first exception aborts the rest. *)
Fixpoint rmap {A B} (f : A → result B) (l : list A) : result (list B) :=
  match l with
  | [] => Ok []
  | x :: l' =>
      let* y := f x in
      let* ys := rmap f l' in
      Ok (y :: ys)
  end.

(** A [for] loop whose body may raise and produces nothing. *)
Fixpoint rforeach {A} (f : A → result unit) (l : list A) : result unit :=
  match l with
  | [] => Ok ()
  | x :: l' => let* _ := f x in rforeach f l'
  end.

(** Dynamically typed record fields. *)
#[warnings="-register-all"]
Inductive pyval :=
  | PNone
  | PInt (z : Z)
  | PStr (s : string)
  | PList (l : list pyval).

(** Python truthiness, as used by [if x:] and [x and y]. *)
Definition truthy (v : pyval) : bool :=
  match v with
  | PNone => false
  | PInt z => negb (z =? 0)%Z
  | PStr s => negb (String.eqb s "")
  | PList l => match l with [] => false | _ => true end
  end.

Definition list_truthy {A} (l : list A) : bool :=
  match l with [] => false | _ => true end.

(** [l[i]]: a negative index counts from the end; out of range raises. *)
Definition py_index {A} (l : list A) (i : Z) : result A :=
  let n := Z.of_nat (length l) in
  let j := (if i <? 0 then i + n else i)%Z in
  if ((j <? 0) || (n <=? j))%Z then Raise IndexError
  else match l !! Z.to_nat j with
       | Some x => Ok x
       | None => Raise IndexError
       end.

(** Normalisation of one slice bound against a sequence of length [n]. *)
Definition slice_bound (n i : Z) : Z :=
  (if i <? 0 then Z.max (i + n) 0 else Z.min i n)%Z.

(** [l[a:b]]: bounds are clamped, never raise. *)
Definition py_slice {A} (l : list A) (a b : Z) : list A :=
  let n := Z.of_nat (length l) in
  let a' := slice_bound n a in
  let b' := slice_bound n b in
  take (Z.to_nat (b' - a')) (drop (Z.to_nat a') l).

(** [enumerate(l)], started at [k]. *)
Fixpoint enumerate_from {A} (k : nat) (l : list A) : list (nat * A) :=
  match l with
  | [] => []
  | x :: l' => (k, x) :: enumerate_from (S k) l'
  end.

Definition enumerate {A} (l : list A) : list (nat * A) := enumerate_from 0 l.

(** ** The aligner *)

Module Aligner.

(** A span is an inclusive pair of word positions; a cluster a list of them. *)
Definition span : Type := Z * Z.
Definition cluster : Type := list span.

(** The loop state of [add_speaker_information]. *)
Record aug_state := AugState {
  new_tokens : list string;
  token_to_new_token_map : list nat;
  new_token_to_token_map : list (option nat);
  last_speaker : option string
}.

(** What the tokenizer call returns, as far as [_tokenize] reads it. *)
Record BatchEncoding := {
  input_ids : list Z;
  enc_length : list Z;
  word_to_tokens : nat → result (Z * Z);
  word_ids : list (option nat)
}.

(** The record [_tokenize] returns. *)
Record EncodedDoc := {
  doc_tokens : list string;
  doc_input_ids : list Z;
  doc_length : Z;
  gold_clusters : list (list (Z * Z));
  new_token_map : list (option nat);
  subtoken_map : list (option nat)
}.

(** The fields of a record that [encode] reads; [None] is an absent key. *)
Record Example := {
  ex_tokens : option (list string);
  ex_clusters : option (list cluster);
  ex_speakers : option (list string)
}.

(** The record [encode] returns: the encoded document and the two derived
    counts. *)
Record EncodedExample := {
  encoded : EncodedDoc;
  num_clusters : nat;
  max_cluster_size : nat
}.

Section WithConsts.

(** [consts.SPEAKER_START] and [consts.SPEAKER_END]: the module [consts] is
    outside the embedded file, so the two marker strings are parameters. *)
Variables SPEAKER_START SPEAKER_END : string.

Definition aug_init : aug_state :=
  AugState [] [] [] None.

(** One iteration of the loop body, lines 24-30. *)
Definition aug_step (st : aug_state) (x : nat * (string * string)) : aug_state :=
  let '(idx, (token, speaker)) := x in
  let st1 :=
    if bool_decide (last_speaker st ≠ Some speaker) then
      AugState (new_tokens st ++ [SPEAKER_START; speaker; SPEAKER_END])
               (token_to_new_token_map st)
               (new_token_to_token_map st ++ [None; None; None])
               (Some speaker)
    else st in
  AugState (new_tokens st1 ++ [token])
           (token_to_new_token_map st1 ++ [length (new_tokens st1)])
           (new_token_to_token_map st1 ++ [Some idx])
           (last_speaker st1).

Definition aug_loop (tokens speakers : list string) : aug_state :=
  foldl aug_step aug_init (enumerate (zip tokens speakers)).

Definition add_speaker_information (tokens speakers : list string)
  : list string * list nat * list (option nat) :=
  let st := aug_loop tokens speakers in
  (new_tokens st, token_to_new_token_map st, new_token_to_token_map st).

(** Lines 36-38 without the assertions: the augmented sequence and the two
    maps that the rest of [_tokenize] works with. *)
Definition augment (tokens speakers : list string)
  : list string * list nat * list (option nat) :=
  if list_truthy speakers then add_speaker_information tokens speakers
  else (tokens, [], []).

(** The condition of the [assert] on line 41. Reading the two map entries may
    raise before the comparison is made. *)
Definition span_check (tokens new_toks : list string) (t2n : list nat)
    (sp : span) : result bool :=
  let '(start, end_) := sp in
  let* a := py_index t2n start in
  let* b := py_index t2n end_ in
  Ok (bool_decide (py_slice tokens start (end_ + 1)
                   = py_slice new_toks (Z.of_nat a) (Z.of_nat b + 1))).

Definition assert_span (tokens new_toks : list string) (t2n : list nat)
    (sp : span) : result unit :=
  let* ok := span_check tokens new_toks t2n sp in
  if ok then Ok () else Raise AssertionError.

(** Lines 39-41. *)
Definition assert_clusters (tokens new_toks : list string) (t2n : list nat)
    (clusters : list cluster) : result unit :=
  rforeach (rforeach (assert_span tokens new_toks t2n)) clusters.

(** One element of the comprehension on lines 49-51. *)
Definition realign_span (enc : BatchEncoding) (t2n : list nat) (sp : span)
  : result (Z * Z) :=
  let '(start, end_) := sp in
  let* a := py_index t2n start in
  let* ra := word_to_tokens enc a in
  let* b := py_index t2n end_ in
  let* rb := word_to_tokens enc b in
  Ok (fst ra, (snd rb - 1)%Z).

Variable tokenizer : list string → BatchEncoding.

Definition _tokenize (tokens : list string) (clusters : list cluster)
    (speakers : list string) : result EncodedDoc :=
  let '(new_toks, t2n, n2t) := augment tokens speakers in
  let* _ := (if list_truthy speakers
             then assert_clusters tokens new_toks t2n clusters
             else Ok ()) in
  let encoded_text := tokenizer new_toks in
  let* new_clusters := rmap (rmap (realign_span encoded_text t2n)) clusters in
  let* len0 := py_index (enc_length encoded_text) 0 in
  Ok {| doc_tokens := tokens;
        doc_input_ids := input_ids encoded_text;
        doc_length := len0;
        gold_clusters := new_clusters;
        new_token_map := n2t;
        subtoken_map := word_ids encoded_text |}.

(** [example[k]] on the three fields [encode] reads: an absent field raises
    [KeyError]. *)
Definition field {A} (o : option A) : result A :=
  match o with
  | Some a => Ok a
  | None => Raise KeyError
  end.

(** [max(len(c) for c in l)] on a list with first element [c]. *)
Definition max_len {A} (c : list A) (cs : list (list A)) : nat :=
  foldl (λ m c', m `max` length c') (length c) cs.

(** Lines 65-72. *)
Definition encode (example : Example) : result EncodedExample :=
  let* tokens := field (ex_tokens example) in
  let* clusters := field (ex_clusters example) in
  let* speakers := field (ex_speakers example) in
  let* encoded_example := _tokenize tokens clusters speakers in
  let gold := gold_clusters encoded_example in
  Ok {| encoded := encoded_example;
        num_clusters := if list_truthy gold then length gold else 0;
        max_cluster_size :=
          match gold with
          | [] => 0
          | c :: cs => max_len c cs
          end |}.

End WithConsts.

(** The number of speaker-change boundaries among the first [m] positions of
    [speakers]: position 0 is one, and so is every later position whose
    speaker differs from the speaker of the position just before it. *)
Definition is_boundary (speakers : list string) (i : nat) : bool :=
  match i with
  | 0 => true
  | S j => bool_decide (speakers !! j ≠ speakers !! i)
  end.

Definition boundaries_upto (speakers : list string) (m : nat) : nat :=
  length (filter (λ i, is_boundary speakers i = true) (seq 0 m)).

Definition boundaries (speakers : list string) : nat :=
  boundaries_upto speakers (length speakers).

(** The closed form of the Forward Map: word [i] is preceded by [i] words and
    by three inserted tokens for every boundary up to and including [i]. *)
Definition forward_pos (speakers : list string) (i : nat) : nat :=
  i + 3 * boundaries_upto speakers (S i).

(** The loop invariant of [add_speaker_information] after [n] iterations. *)
Record aug_inv (tokens speakers : list string) (n : nat) (st : aug_state)
  : Prop := AugInv {
  inv_fwd : token_to_new_token_map st = forward_pos speakers <$> seq 0 n;
  inv_len : length (new_tokens st) = n + 3 * boundaries_upto speakers n;
  inv_bwd_len :
    length (new_token_to_token_map st) = length (new_tokens st);
  inv_word : ∀ i, i < n →
    new_tokens st !! forward_pos speakers i = tokens !! i;
  inv_bwd : ∀ i, i < n →
    new_token_to_token_map st !! forward_pos speakers i = Some (Some i);
  inv_bwd_words : omap id (new_token_to_token_map st) = seq 0 n;
  inv_last :
    last_speaker st = match n with 0 => None | S m => speakers !! m end
}.

(** Keep a word of the augmented sequence when the Backward Map gives it an
    original position. *)
Definition keep_original (wb : string * option nat) : option string :=
  match wb.2 with
  | Some _ => Some wb.1
  | None => None
  end.

(** How the augmented sequence is laid out after [n] iterations: the Backward
    Map names only forward positions, dropping the inserted tokens gives the
    words back, and each turn starts with the three inserted tokens. *)
Record aug_layout (SPEAKER_START SPEAKER_END : string)
    (tokens speakers : list string) (n : nat) (st : aug_state) : Prop :=
  AugLayout {
  lay_bwd : ∀ p i, new_token_to_token_map st !! p = Some (Some i) →
    p = forward_pos speakers i;
  lay_strip :
    omap keep_original (zip (new_tokens st) (new_token_to_token_map st))
    = take n tokens;
  lay_turn : ∀ i, i < n → is_boundary speakers i = true →
    new_tokens st !! (forward_pos speakers i - 3) = Some SPEAKER_START
    ∧ new_tokens st !! (forward_pos speakers i - 2) = speakers !! i
    ∧ new_tokens st !! (forward_pos speakers i - 1) = Some SPEAKER_END
    ∧ ∀ d, 1 ≤ d ≤ 3 →
        new_token_to_token_map st !! (forward_pos speakers i - d)
        = Some None
}.

(** No speaker change strictly inside the word range [s..e]. *)
Definition same_turn (speakers : list string) (s e : nat) : Prop :=
  ∀ i, s < i ≤ e → is_boundary speakers i = false.

(** A span given by natural numbers inside the document and inside one
    speaker turn. *)
Definition turn_span (tokens speakers : list string) (sp : span) : Prop :=
  ∃ s e, sp = (Z.of_nat s, Z.of_nat e)
         ∧ s ≤ e < length tokens ∧ same_turn speakers s e.

(** A tokenizer for worked examples: one subword per word between a leading
    and a trailing special token. *)
Definition unit_tokenizer (words : list string) : BatchEncoding :=
  {| input_ids := (0 :: map (λ _, 7) words ++ [2])%Z;
     enc_length := [Z.of_nat (length words + 2)];
     word_to_tokens := λ i,
       if decide (i < length words)
       then Ok (Z.of_nat (i + 1), Z.of_nat (i + 2))
       else Raise IndexError;
     word_ids := None :: map Some (seq 0 (length words)) ++ [None] |}.

End Aligner.

(** ** Record normalisation *)

Module Normalize.

(** A raw record: a dictionary from field names to values. *)
Abbreviation example := (gmap string pyval).

(** [k in example and example[k]]. *)
Definition has_content (ex : example) (k : string) : bool :=
  match ex !! k with
  | Some v => truthy v
  | None => false
  end.

(** [example[k]] *)
Definition getitem (ex : example) (k : string) : result pyval :=
  match ex !! k with
  | Some v => Ok v
  | None => Raise KeyError
  end.

Section WithHelpers.

(** [util.flatten] and the sentence splitter [nlp] live outside the embedded
    file. [nlp_texts t] stands for [[tok.text for tok in nlp(t)]]. *)
Variable flatten : pyval → pyval.
Variable nlp_texts : pyval → list string.

Definition prepare_for_encode (ex : example) : result example :=
  if has_content ex "tokens" then Ok ex
  else if has_content ex "sentences" then
    let* sents := getitem ex "sentences" in
    let ex1 := <["tokens" := flatten sents]> ex in
    let* spk := getitem ex1 "speakers" in
    Ok (<["speakers" := flatten spk]> ex1)
  else if has_content ex "text" then
    let* txt := getitem ex "text" in
    Ok (<["tokens" := PList (PStr <$> nlp_texts txt)]> ex)
  else Raise ValueError.

End WithHelpers.

(** [if k not in doc: doc[k] = v] *)
Definition setdefault (k : string) (v : pyval) (doc : example) : example :=
  match doc !! k with
  | Some _ => doc
  | None => <[k := v]> doc
  end.

Definition has_key (doc : example) (k : string) : bool :=
  bool_decide (is_Some (doc !! k)).

(** Lines 95-110, for the parsed line number [i]. *)
Definition read_line (i : nat) (doc : example) : result example :=
  if negb (has_key doc "text") && negb (has_key doc "tokens")
     && negb (has_key doc "sentences")
  then Raise ValueError
  else
    let doc := setdefault "doc_key" (PStr (pretty i)) doc in
    let doc := setdefault "text" (PStr "") doc in
    let doc := setdefault "sentences" (PList []) doc in
    let doc := setdefault "tokens" (PList []) doc in
    let doc := setdefault "speakers" (PList []) doc in
    let doc := setdefault "clusters" (PList []) doc in
    Ok doc.

(** Lines 92-110 over the parsed lines of the file, consumed to the end: the
    records in order, or the exception of the first line that raises. *)
Definition read_jsonlines (docs : list example) : result (list example) :=
  rmap (λ x, read_line x.1 x.2) (enumerate docs).

(** The values [read_jsonlines] gives to absent fields of line [i]. *)
Definition line_defaults (i : nat) : example :=
  {[ "doc_key" := PStr (pretty i);
     "text" := PStr "";
     "sentences" := PList [];
     "tokens" := PList [];
     "speakers" := PList [];
     "clusters" := PList [] ]}.

(** A line that has at least one of the three content keys. *)
Definition has_content_key (doc : example) : Prop :=
  is_Some (doc !! "text") ∨ is_Some (doc !! "tokens")
  ∨ is_Some (doc !! "sentences").

#[global] Instance has_content_key_dec (doc : example) :
  Decision (has_content_key doc).
Proof. unfold has_content_key. apply _. Defined.

(** The six fields every record has after [read_jsonlines]. *)
Definition record_fields : list string :=
  ["doc_key"; "text"; "sentences"; "tokens"; "speakers"; "clusters"].

(** Stand-ins for the two helpers in worked examples: a flattening of a list
    of lists, and a splitter that returns the whole text as one token. *)
Definition concat_lists (v : pyval) : pyval :=
  match v with
  | PList ls =>
      PList (concat (map (λ x, match x with PList l => l | _ => [] end) ls))
  | _ => v
  end.

Definition whole_text (v : pyval) : list string :=
  match v with
  | PStr s => [s]
  | _ => []
  end.

(** A record in the sentence-grouped form, with every field present. *)
Definition grouped_record : example :=
  {[ "text" := PStr "";
     "tokens" := PList [];
     "sentences" := PList [PList [PStr "Hi"]; PList [PStr "Bob"]];
     "speakers" := PList [PList [PStr "A"]; PList [PStr "B"]] ]}.

End Normalize.

(** ** The batch cache *)

Module BatchCache.

(** What [create_batches] observes of [sampler.collator]: the outcome of the
    two [isinstance] tests. *)
Record collator := {
  isinstance_LeftOversCollator : bool;
  isinstance_PadCollator : bool
}.

(** A batch maps field names to values; iterating the sampler yields its
    batches in order. *)
Abbreviation batch := (gmap string pyval).

Record sampler := {
  sampler_collator : collator;
  sampler_batches : list batch
}.

(** Calls made to the outside world, in the order they happen. Logging is
    left out. *)
Inductive event :=
  | EvLoad (path : string)
  | EvIterate
  | EvFromDict
  | EvSave (path : string).

Section WithStore.

(** The fingerprint function [Hasher.hash], [os.path.join], and the
    persistence layer of the [datasets] library, with the state of the file
    system it reads and writes. *)
Variable Hasher_hash : pyval → string.
Variable path_join : string → string → string.
Variable Dataset : Type.
Variable Disk : Type.
Variable load_from_disk : Disk → string → result Dataset.
Variable from_dict : gmap string (list pyval) → result Dataset.
Variable save_to_disk : Disk → string → Dataset → Disk * result unit.

Record world := World {
  disk : Disk;
  trace : list event
}.

(** State and exceptions: a raised exception keeps the state reached. *)
Definition M (A : Type) : Type := world → result A * world.

Definition ret {A} (a : A) : M A := λ w, (Ok a, w).
Definition raise {A} (e : exn) : M A := λ w, (Raise e, w).
Definition bind {A B} (m : M A) (k : A → M B) : M B :=
  λ w, match m w with
       | (Ok a, w') => k a w'
       | (Raise e, w') => (Raise e, w')
       end.
Definition lift {A} (r : result A) : M A := λ w, (r, w).

(** [try: m  except e: handler] *)
Definition try_except {A} (m : M A) (e : exn) (handler : M A) : M A :=
  λ w, match m w with
       | (Ok a, w') => (Ok a, w')
       | (Raise e', w') =>
           if decide (e' = e) then handler w' else (Raise e', w')
       end.

Definition emit (ev : event) (w : world) : world :=
  World (disk w) (trace w ++ [ev]).

Definition load (path : string) : M Dataset :=
  λ w, (load_from_disk (disk w) path, emit (EvLoad path) w).

Definition iterate (s : sampler) : M (list batch) :=
  λ w, (Ok (sampler_batches s), emit EvIterate w).

Definition build (d : gmap string (list pyval)) : M Dataset :=
  λ w, (from_dict d, emit EvFromDict w).

Definition save (path : string) (ds : Dataset) : M unit :=
  λ w, let '(d', r) := save_to_disk (disk w) path ds in
       (r, World d' (trace w ++ [EvSave path])).

Notation "'let!' x ':=' m 'in' k" := (bind m (λ x, k))
  (at level 10, x pattern, m at level 100, k at level 200).

(** [batches_dict[k].append(v)] on a [defaultdict] of lists. *)
Definition append_field (d : gmap string (list pyval)) (kv : string * pyval)
  : gmap string (list pyval) :=
  <[kv.1 := default [] (d !! kv.1) ++ [kv.2]]> d.

(** Lines 152-153, for one batch. *)
Definition collect_batch (d : gmap string (list pyval)) (b : batch)
  : gmap string (list pyval) :=
  foldl append_field d (map_to_list b).

(** Lines 149-153. *)
Definition collect (bs : list batch) : gmap string (list pyval) :=
  foldl collect_batch ∅ bs.

(** Lines 131-137: the key before the second fingerprint. *)
Definition collator_key (c : collator) (dataset_files : pyval) : result string :=
  let key := Hasher_hash dataset_files in
  if isinstance_LeftOversCollator c then Ok (key +:+ "_segment_collator")
  else if isinstance_PadCollator c then Ok (key +:+ "_longformer_collator")
  else Raise NotImplementedError.

(** Lines 139-140. *)
Definition cache_key_of (key : string) : string := Hasher_hash (PStr key).

Definition dataset_path_of (cache_dir key : string) : string :=
  path_join cache_dir (cache_key_of key).

(** Lines 146-159: the body of the [except] clause. *)
Definition recompute (s : sampler) (dataset_path : string) : M Dataset :=
  let! bs := iterate s in
  let batches_dict := collect bs in
  let! batches := build batches_dict in
  let! _ := save dataset_path batches in
  ret batches.

Definition create_batches (s : sampler) (dataset_files : pyval)
    (cache_dir : string) : M Dataset :=
  let! key := lift (collator_key (sampler_collator s) dataset_files) in
  let dataset_path := dataset_path_of cache_dir key in
  try_except (load dataset_path) FileNotFoundError
             (recompute s dataset_path).

End WithStore.

Arguments World {Disk} disk trace.
Arguments disk {Disk} w.
Arguments trace {Disk} w.
Arguments emit {Disk} ev w.

(** An in-memory persistence layer for worked examples: a dataset is its
    column dictionary, the disk maps paths to datasets, a load of an absent
    path raises [FileNotFoundError] and a save always succeeds. *)
Abbreviation mem_dataset := (gmap string (list pyval)).
Abbreviation mem_disk := (gmap string (gmap string (list pyval))).

Definition mem_load (d : mem_disk) (path : string) : result mem_dataset :=
  match d !! path with
  | Some ds => Ok ds
  | None => Raise FileNotFoundError
  end.

Definition mem_from_dict (d : gmap string (list pyval)) : result mem_dataset :=
  Ok d.

Definition mem_save (d : mem_disk) (path : string) (ds : mem_dataset)
  : mem_disk * result unit :=
  (<[path := ds]> d, Ok ()).

(** A collision-free stand-in for the fingerprint: strings hash to
    themselves behind a tag. *)
Definition tag_hash (v : pyval) : string :=
  match v with
  | PStr s => "s:" +:+ s
  | _ => "o"
  end.

Definition slash_join (dir name : string) : string := dir +:+ "/" +:+ name.

(** Two samplers over the same two batches, one per supported collator, and
    one with a collator of another kind. *)
Definition two_batches : list batch :=
  [ {[ "input_ids" := PList [PInt 5; PInt 6]; "length" := PInt 2 ]};
    {[ "input_ids" := PList [PInt 7]; "length" := PInt 1 ]} ].

Definition segment_sampler : sampler :=
  {| sampler_collator := {| isinstance_LeftOversCollator := true;
                            isinstance_PadCollator := false |};
     sampler_batches := two_batches |}.

Definition longformer_sampler : sampler :=
  {| sampler_collator := {| isinstance_LeftOversCollator := false;
                            isinstance_PadCollator := true |};
     sampler_batches := two_batches |}.

Definition other_sampler : sampler :=
  {| sampler_collator := {| isinstance_LeftOversCollator := false;
                            isinstance_PadCollator := false |};
     sampler_batches := two_batches |}.

Definition empty_world : world mem_disk := World ∅ [].

End BatchCache.

(** * Properties *)

(** ** Python sequence access *)

Lemma py_index_nat {A} (l : list A) (i : nat) (x : A) :
  l !! i = Some x → py_index l (Z.of_nat i) = Ok x.
Proof.
  intros Hx. pose proof (lookup_lt_Some _ _ _ Hx) as Hlt.
  unfold py_index.
  destruct (Z.ltb_spec (Z.of_nat i) 0) as [?|_]; [lia|].
  destruct (Z.ltb_spec (Z.of_nat i) 0) as [?|_]; [lia|].
  destruct (Z.leb_spec (Z.of_nat (length l)) (Z.of_nat i)) as [?|_]; [lia|].
  simpl. by rewrite Nat2Z.id, Hx.
Qed.

Lemma py_index_nil {A} (i : Z) : py_index (@nil A) i = Raise IndexError.
Proof.
  unfold py_index. cbn [length]. change (Z.of_nat 0) with 0%Z.
  destruct (Z.ltb_spec i 0) as [Hi|Hi].
  - rewrite Z.add_0_r. by destruct (Z.ltb_spec i 0); [|lia].
  - destruct (Z.ltb_spec i 0); [lia|].
    by destruct (Z.leb_spec 0 i); [|lia].
Qed.

Lemma py_slice_nat {A} (l : list A) (a b : nat) :
  a ≤ b ≤ length l →
  py_slice l (Z.of_nat a) (Z.of_nat b) = take (b - a) (drop a l).
Proof.
  intros Hab. unfold py_slice, slice_bound.
  destruct (Z.ltb_spec (Z.of_nat a) 0) as [?|_]; [lia|].
  destruct (Z.ltb_spec (Z.of_nat b) 0) as [?|_]; [lia|].
  rewrite !Z.min_l by lia.
  by rewrite <- Nat2Z.inj_sub, !Nat2Z.id by lia.
Qed.

Lemma enumerate_from_snoc {A} (k : nat) (l : list A) (x : A) :
  enumerate_from k (l ++ [x]) = enumerate_from k l ++ [(k + length l, x)].
Proof.
  revert k. induction l as [|y l IH]; intros k; simpl.
  - by rewrite Nat.add_0_r.
  - rewrite IH. by replace (S k + length l) with (k + S (length l)) by lia.
Qed.

(** ** Comprehensions and loops that may raise *)

Lemma rmap_Ok {A B} (f : A → result B) (l : list A) (ys : list B) :
  rmap f l = Ok ys ↔ Forall2 (λ x y, f x = Ok y) l ys.
Proof.
  revert ys. induction l as [|x l IH]; intros ys; cbn.
  - split; [by intros [= <-]; constructor | by inversion 1].
  - destruct (f x) as [y|e] eqn:Hx; cbn.
    + destruct (rmap f l) as [zs|e] eqn:Hl; cbn.
      * split.
        -- intros [= <-]. constructor; [done|]. by apply IH.
        -- inversion 1 as [|? y' ? zs' Hy Hzs]; subst.
           apply IH in Hzs. congruence.
      * split; [done|].
        inversion 1 as [|? y' ? zs' Hy Hzs]; subst.
        by apply IH in Hzs.
    + split; [done|]. inversion 1; congruence.
Qed.

Lemma rmap_Raise {A B} (f : A → result B) (l : list A) (e : exn) :
  rmap f l = Raise e → Exists (λ x, f x = Raise e) l.
Proof.
  induction l as [|x l IH]; cbn; [done|].
  destruct (f x) as [y|e'] eqn:Hx; cbn.
  - destruct (rmap f l) as [zs|e'']; cbn; [done|].
    intros [= ->]. apply Exists_cons_tl. by apply IH.
  - intros [= ->]. by apply Exists_cons_hd.
Qed.

Lemma rforeach_Ok {A} (f : A → result unit) (l : list A) :
  rforeach f l = Ok () ↔ Forall (λ x, f x = Ok ()) l.
Proof.
  induction l as [|x l IH]; cbn; [by split; [constructor|]|].
  destruct (f x) as [[]|e] eqn:Hx; cbn.
  - rewrite IH. split; [by constructor | by inversion 1].
  - split; [done|]. inversion 1; congruence.
Qed.

Lemma rforeach_Raise {A} (f : A → result unit) (l : list A) (e : exn) :
  rforeach f l = Raise e → Exists (λ x, f x = Raise e) l.
Proof.
  induction l as [|x l IH]; cbn; [done|].
  destruct (f x) as [[]|e'] eqn:Hx; cbn.
  - intros Hl. apply Exists_cons_tl. by apply IH.
  - intros [= ->]. by apply Exists_cons_hd.
Qed.

(** ** Speaker augmentation *)

Module AlignerFacts.
Import Aligner.

Lemma boundaries_upto_S (speakers : list string) (m : nat) :
  boundaries_upto speakers (S m)
  = boundaries_upto speakers m + (if is_boundary speakers m then 1 else 0).
Proof.
  unfold boundaries_upto.
  rewrite seq_S, filter_app, length_app. f_equal. simpl.
  rewrite filter_cons, filter_nil.
  destruct (is_boundary speakers m); by case_decide.
Qed.

Lemma boundaries_upto_mono (speakers : list string) (m n : nat) :
  m ≤ n → boundaries_upto speakers m ≤ boundaries_upto speakers n.
Proof.
  induction 1 as [|n _ IH]; [done|].
  rewrite boundaries_upto_S. lia.
Qed.

Lemma boundaries_upto_le (speakers : list string) (m : nat) :
  boundaries_upto speakers m ≤ m.
Proof.
  induction m as [|m IH]; [done|].
  rewrite boundaries_upto_S. destruct (is_boundary speakers m); lia.
Qed.

(** The Forward Map in closed form is strictly increasing. *)
Lemma forward_pos_lt (speakers : list string) (i j : nat) :
  i < j → forward_pos speakers i < forward_pos speakers j.
Proof.
  intros Hij. unfold forward_pos.
  pose proof (boundaries_upto_mono speakers (S i) (S j)). lia.
Qed.

Lemma forward_pos_bound (speakers : list string) (i n : nat) :
  i < n → forward_pos speakers i < n + 3 * boundaries_upto speakers n.
Proof.
  intros Hin. unfold forward_pos.
  pose proof (boundaries_upto_mono speakers (S i) n). lia.
Qed.

(** A range has no speaker change strictly inside it exactly when the
    boundary count does not grow over it. *)
Lemma same_turn_boundaries (speakers : list string) (s e : nat) :
  s ≤ e →
  same_turn speakers s e ↔
  boundaries_upto speakers (S e) = boundaries_upto speakers (S s).
Proof.
  induction 1 as [|e Hse IH].
  - split; [done|]. intros _ i ?. lia.
  - rewrite boundaries_upto_S.
    pose proof (boundaries_upto_mono speakers (S s) (S e)) as Hmono.
    split.
    + intros Hturn.
      rewrite (Hturn (S e)) by lia.
      rewrite Nat.add_0_r. apply IH. intros i ?. apply Hturn. lia.
    + intros Heq.
      destruct (is_boundary speakers (S e)) eqn:Hb; [lia|].
      rewrite Nat.add_0_r in Heq.
      intros i Hi. destruct (decide (i = S e)) as [->|]; [done|].
      apply IH; [done | lia].
Qed.

Section Augmentation.

Variables SPEAKER_START SPEAKER_END : string.

Abbreviation step := (aug_step SPEAKER_START SPEAKER_END).

Lemma aug_init_inv (tokens speakers : list string) :
  aug_inv tokens speakers 0 aug_init.
Proof. split; simpl; try done; intros; lia. Qed.

(** The test on line 24 is the boundary test of the specification. *)
Lemma boundary_test (tokens speakers : list string) (n : nat)
    (st : aug_state) (speaker : string) :
  aug_inv tokens speakers n st →
  speakers !! n = Some speaker →
  bool_decide (last_speaker st ≠ Some speaker) = is_boundary speakers n.
Proof.
  intros Hinv Hs. rewrite (inv_last _ _ _ _ Hinv).
  destruct n as [|m]; simpl; [done | by rewrite Hs].
Qed.

(** The loop body in one shape for both outcomes of the test. *)
Lemma aug_step_unfold (st : aug_state) (n : nat) (token speaker : string) :
  let b := bool_decide (last_speaker st ≠ Some speaker) in
  step st (n, (token, speaker))
  = AugState
      ((new_tokens st
        ++ (if b then [SPEAKER_START; speaker; SPEAKER_END] else []))
       ++ [token])
      (token_to_new_token_map st
       ++ [length (new_tokens st) + (if b then 3 else 0)])
      ((new_token_to_token_map st
        ++ (if b then [None; None; None] else []))
       ++ [Some n])
      (if b then Some speaker else last_speaker st).
Proof.
  unfold aug_step. cbn zeta.
  destruct (bool_decide (last_speaker st ≠ Some speaker)); cbn.
  - by rewrite length_app.
  - by rewrite !app_nil_r, Nat.add_0_r.
Qed.

Lemma aug_step_inv (tokens speakers : list string) (n : nat)
    (st : aug_state) (token speaker : string) :
  aug_inv tokens speakers n st →
  tokens !! n = Some token →
  speakers !! n = Some speaker →
  aug_inv tokens speakers (S n) (step st (n, (token, speaker))).
Proof.
  intros Hinv Ht Hs.
  pose proof (boundary_test _ _ _ _ _ Hinv Hs) as Htest.
  destruct Hinv as [Hfwd Hlen Hblen Hword Hbwd Hbw Hlast].
  rewrite aug_step_unfold. cbn zeta. rewrite Htest.
  set (b := is_boundary speakers n) in *.
  set (extra := if b then [SPEAKER_START; speaker; SPEAKER_END] else []).
  set (blank := if b then [None; None; None] else []).
  assert (Hextra : length extra = if b then 3 else 0) by by destruct b.
  assert (Hblank : length blank = if b then 3 else 0) by by destruct b.
  assert (Hpos : forward_pos speakers n
                 = length (new_tokens st ++ extra)).
  { unfold forward_pos. rewrite boundaries_upto_S, length_app, Hlen, Hextra.
    fold b. destruct b; lia. }
  assert (Hold : ∀ i, i < n → forward_pos speakers i < length (new_tokens st)).
  { intros i Hi. rewrite Hlen. by apply forward_pos_bound. }
  split; cbn [new_tokens token_to_new_token_map new_token_to_token_map
              last_speaker].
  - rewrite seq_S, fmap_app, Hfwd.
    change (forward_pos speakers <$> [0 + n])
      with [forward_pos speakers n].
    by rewrite Hpos, length_app, Hextra.
  - rewrite !length_app, Hlen, Hextra, boundaries_upto_S. fold b. cbn.
    destruct b; lia.
  - rewrite !length_app, Hblen, Hextra, Hblank. done.
  - intros i Hi. destruct (decide (i = n)) as [->|Hne].
    + rewrite Ht. by apply list_lookup_middle.
    + rewrite <- app_assoc, lookup_app_l by (apply Hold; lia).
      apply Hword. lia.
  - intros i Hi. destruct (decide (i = n)) as [->|Hne].
    + apply list_lookup_middle.
      by rewrite Hpos, !length_app, Hblen, Hextra, Hblank.
    + rewrite <- app_assoc, lookup_app_l by (rewrite Hblen; apply Hold; lia).
      apply Hbwd. lia.
  - rewrite !omap_app, Hbw, seq_S.
    replace (omap id blank) with (@nil nat) by by destruct b.
    by rewrite app_nil_r.
  - destruct b eqn:Hb; [done|].
    apply bool_decide_eq_false in Htest.
    rewrite Hs. by destruct (decide (last_speaker st = Some speaker)).
Qed.

Lemma aug_prefix_inv (tokens speakers : list string) (n : nat) :
  n ≤ length (zip tokens speakers) →
  aug_inv tokens speakers n
    (foldl step aug_init (enumerate (take n (zip tokens speakers)))).
Proof.
  induction n as [|n IH]; intros Hn.
  - rewrite take_0. apply aug_init_inv.
  - destruct (lookup_lt_is_Some_2 (zip tokens speakers) n) as [[t s] Hz];
      [lia|].
    rewrite (take_S_r _ _ _ Hz). unfold enumerate.
    rewrite enumerate_from_snoc, foldl_app. cbn [foldl].
    rewrite length_take_le by lia. cbn [Nat.add].
    apply lookup_zip_with_Some in Hz as (t' & s' & [= -> ->] & Ht & Hs).
    apply aug_step_inv; [|done..]. apply IH. lia.
Qed.

(** The invariant at loop exit: [zip] stops at the shorter input. *)
Lemma aug_loop_inv (tokens speakers : list string) :
  aug_inv tokens speakers (length tokens `min` length speakers)
    (aug_loop SPEAKER_START SPEAKER_END tokens speakers).
Proof.
  unfold aug_loop. rewrite <- length_zip.
  rewrite <- (firstn_all (zip tokens speakers)) at 2.
  by apply aug_prefix_inv.
Qed.

(** What [add_speaker_information] returns, read off the invariant. *)
Lemma add_speaker_information_spec (tokens speakers : list string) :
  let n := length tokens `min` length speakers in
  ∃ nt fwd bwd,
    add_speaker_information SPEAKER_START SPEAKER_END tokens speakers
    = (nt, fwd, bwd)
    ∧ fwd = forward_pos speakers <$> seq 0 n
    ∧ length nt = n + 3 * boundaries_upto speakers n
    ∧ length bwd = length nt
    ∧ (∀ i, i < n → nt !! forward_pos speakers i = tokens !! i)
    ∧ (∀ i, i < n → bwd !! forward_pos speakers i = Some (Some i))
    ∧ omap id bwd = seq 0 n.
Proof.
  intros n. destruct (aug_loop_inv tokens speakers).
  unfold add_speaker_information. eauto 10.
Qed.

Lemma forward_lookup (speakers : list string) (n i : nat) :
  i < n → (forward_pos speakers <$> seq 0 n) !! i
          = Some (forward_pos speakers i).
Proof.
  intros Hi. by rewrite list_lookup_fmap, lookup_seq_lt.
Qed.

Lemma forward_lookup_inv (speakers : list string) (n i p : nat) :
  (forward_pos speakers <$> seq 0 n) !! i = Some p →
  i < n ∧ p = forward_pos speakers i.
Proof.
  rewrite list_lookup_fmap. intros Hp.
  destruct (seq 0 n !! i) as [j|] eqn:Hj; [|done].
  apply lookup_seq in Hj as [-> ?]. by injection Hp as <-.
Qed.

(** The two worked scenarios of the specification. *)
Example scenario_one_speaker :
  add_speaker_information SPEAKER_START SPEAKER_END
    ["Hi"; "Bob"] ["A"; "A"]
  = ([SPEAKER_START; "A"; SPEAKER_END; "Hi"; "Bob"],
     [3; 4],
     [None; None; None; Some 0; Some 1]).
Proof. reflexivity. Qed.

Example scenario_two_speakers :
  length (add_speaker_information SPEAKER_START SPEAKER_END
            ["Hi"; "Bob"] ["A"; "B"]).1.1 = 2 + 3 * 2.
Proof. reflexivity. Qed.

(** A speaker who returns after an interruption opens a new turn. *)
Example returning_speaker_counts : boundaries ["A"; "B"; "A"; "A"] = 3.
Proof. reflexivity. Qed.

(** C3 (length invariant). For a word sequence and a speaker sequence of the
    same length, the augmented word sequence has [len(words) + 3 * B]
    entries, where [B] counts the positions whose speaker differs from the
    speaker of the word just before: position 0 always counts, and a later
    position counts exactly when its speaker is not that of its predecessor,
    whether or not the speaker was seen earlier. *)
Theorem C3_augmented_length (tokens speakers : list string) :
  length tokens = length speakers →
  length (add_speaker_information SPEAKER_START SPEAKER_END
            tokens speakers).1.1
  = length tokens + 3 * boundaries speakers
  ∧ boundaries speakers
    = length (filter (λ i, is_boundary speakers i = true)
                     (seq 0 (length speakers)))
  ∧ is_boundary speakers 0 = true
  ∧ (∀ i, is_boundary speakers (S i) = true
          ↔ speakers !! i ≠ speakers !! S i).
Proof.
  intros Hlen.
  destruct (add_speaker_information_spec tokens speakers)
    as (nt & fwd & bwd & -> & _ & Hnt & _).
  rewrite <- Hlen, Nat.min_id in Hnt.
  repeat split; try done.
  - cbn [fst]. unfold boundaries. by rewrite <- Hlen.
  - intros Hb. by apply bool_decide_eq_true in Hb.
  - intros Hne. by apply bool_decide_eq_true.
Qed.

(** C4 (map inverse property). For a word sequence and a non-empty speaker
    sequence of the same length, the Backward Map read at the Forward Map of
    an original position [i] gives [i] back, and the Forward Map is strictly
    increasing. *)
Theorem C4_forward_backward_round_trip (tokens speakers : list string) :
  speakers ≠ [] →
  length tokens = length speakers →
  let r := add_speaker_information SPEAKER_START SPEAKER_END
             tokens speakers in
  (∀ i, i < length tokens →
        ∃ p, r.1.2 !! i = Some p ∧ r.2 !! p = Some (Some i))
  ∧ (∀ i j p q, i < j → r.1.2 !! i = Some p → r.1.2 !! j = Some q → p < q).
Proof.
  intros _ Hlen r. subst r.
  destruct (add_speaker_information_spec tokens speakers)
    as (nt & fwd & bwd & -> & -> & _ & _ & _ & Hbwd & _).
  rewrite <- Hlen, Nat.min_id in *. cbn [fst snd]. split.
  - intros i Hi. exists (forward_pos speakers i).
    split; [by apply forward_lookup | by apply Hbwd].
  - intros i j p q Hij Hp Hq.
    apply forward_lookup_inv in Hp as [_ ->].
    apply forward_lookup_inv in Hq as [_ ->].
    by apply forward_pos_lt.
Qed.

(** C10 (truncation by the shorter speaker list). When the speaker list is
    non-empty and strictly shorter than the word list, only the first
    [len(speakers)] words take part: the result is that of the truncated
    word list and does not change with the words beyond it, the Forward Map
    has [len(speakers)] entries, and the original positions recorded in the
    Backward Map are exactly [0 .. len(speakers) - 1]. *)
Theorem C10_short_speakers_truncate (tokens speakers : list string) :
  speakers ≠ [] →
  length speakers < length tokens →
  let k := length speakers in
  let r := add_speaker_information SPEAKER_START SPEAKER_END
             tokens speakers in
  r = add_speaker_information SPEAKER_START SPEAKER_END
        (take k tokens) speakers
  ∧ (∀ rest, add_speaker_information SPEAKER_START SPEAKER_END
               (take k tokens ++ rest) speakers = r)
  ∧ length r.1.1 = k + 3 * boundaries speakers
  ∧ length r.1.2 = k
  ∧ (∀ i, k ≤ i → r.1.2 !! i = None)
  ∧ length r.2 = length r.1.1
  ∧ omap id r.2 = seq 0 k
  ∧ (∀ p i, r.2 !! p = Some (Some i) → i < k).
Proof.
  intros _ Hshort. cbv zeta.
  set (k := length speakers).
  set (r := add_speaker_information _ _ tokens speakers).
  assert (Htrunc : ∀ toks, take k toks = take k tokens →
            add_speaker_information SPEAKER_START SPEAKER_END toks speakers
            = r).
  { intros toks Htoks. subst r k.
    unfold add_speaker_information, aug_loop.
    by rewrite <- (zip_with_take_l _ toks), <- (zip_with_take_l _ tokens),
               Htoks. }
  pose proof (add_speaker_information_spec tokens speakers)
    as (nt & fwd & bwd & Hr & -> & Hnt & Hbl & _ & _ & Hbw).
  fold r in Hr. rewrite Nat.min_r in * by lia. fold k in Hnt, Hbw |- *.
  split; [symmetry; apply Htrunc; by rewrite take_take, Nat.min_id|].
  split.
  { intros rest. apply Htrunc.
    rewrite take_app_le by (rewrite length_take; lia).
    by rewrite take_take, Nat.min_id. }
  rewrite Hr. cbn [fst snd].
  repeat split; try done.
  - by rewrite length_fmap, length_seq.
  - intros i Hi. apply lookup_ge_None_2.
    by rewrite length_fmap, length_seq.
  - intros p i Hp.
    assert (Hin : i ∈ omap id bwd).
    { apply list_elem_of_omap. exists (Some i). split; [|done].
      by apply list_elem_of_lookup_2 with p. }
    rewrite Hbw in Hin. apply elem_of_seq in Hin. lia.
Qed.

(** Inside one speaker turn the Forward Map is a shift. *)
Lemma same_turn_shift (speakers : list string) (s e d : nat) :
  same_turn speakers s e → s + d ≤ e →
  forward_pos speakers (s + d) = forward_pos speakers s + d.
Proof.
  intros Hturn Hd.
  assert (same_turn speakers s (s + d)) as Hsub.
  { intros i Hi. apply Hturn. lia. }
  apply same_turn_boundaries in Hsub; [|lia].
  unfold forward_pos. lia.
Qed.

(** The two slices compared by the assertion on line 41, for a span inside
    the document. *)
Lemma span_check_slices (tokens speakers : list string) (s e : nat) :
  length speakers = length tokens →
  s ≤ e < length tokens →
  let r := add_speaker_information SPEAKER_START SPEAKER_END
             tokens speakers in
  span_check tokens r.1.1 r.1.2 (Z.of_nat s, Z.of_nat e)
  = Ok (bool_decide
          (take (S e - s) (drop s tokens)
           = take (S (forward_pos speakers e) - forward_pos speakers s)
                  (drop (forward_pos speakers s) r.1.1))).
Proof.
  intros Hlen Hse r. subst r.
  destruct (add_speaker_information_spec tokens speakers)
    as (nt & fwd & bwd & -> & -> & Hnt & _).
  rewrite Hlen, Nat.min_id in *. cbn [fst snd].
  unfold span_check.
  rewrite (py_index_nat _ s (forward_pos speakers s))
    by (apply forward_lookup; lia).
  rewrite (py_index_nat _ e (forward_pos speakers e))
    by (apply forward_lookup; lia).
  cbn [rbind].
  pose proof (forward_pos_bound speakers e (length tokens)) as Hbound.
  assert (forward_pos speakers s ≤ forward_pos speakers e) as Hmono.
  { destruct (decide (s = e)) as [->|]; [done|].
    apply Nat.lt_le_incl, forward_pos_lt. lia. }
  replace (Z.of_nat e + 1)%Z with (Z.of_nat (S e)) by lia.
  replace (Z.of_nat (forward_pos speakers e) + 1)%Z
    with (Z.of_nat (S (forward_pos speakers e))) by lia.
  by rewrite !py_slice_nat by lia.
Qed.

(** [same_turn] in terms of the speaker list. *)
Lemma same_turn_speakers (speakers : list string) (s e : nat) :
  same_turn speakers s e
  ↔ ∀ i, s < i ≤ e → speakers !! i = speakers !! (i - 1).
Proof.
  unfold same_turn. split; intros H i Hi; specialize (H i Hi).
  - destruct i as [|j]; [lia|]. cbn in H.
    apply bool_decide_eq_false in H.
    replace (S j - 1) with j by lia.
    by destruct (decide (speakers !! j = speakers !! S j)).
  - destruct i as [|j]; [lia|]. cbn.
    replace (S j - 1) with j in H by lia.
    apply bool_decide_eq_false. by intros [].
Qed.

(** The assertion's condition on a span inside the document: true exactly
    when the span stays inside one speaker turn. *)
Lemma span_check_same_turn (tokens speakers : list string) (s e : nat) :
  length speakers = length tokens →
  s ≤ e < length tokens →
  let r := add_speaker_information SPEAKER_START SPEAKER_END
             tokens speakers in
  ∃ ok, span_check tokens r.1.1 r.1.2 (Z.of_nat s, Z.of_nat e) = Ok ok
        ∧ (ok = true ↔ same_turn speakers s e).
Proof.
  intros Hlen Hse r. eexists. split; [by apply span_check_slices|].
  subst r.
  destruct (add_speaker_information_spec tokens speakers)
    as (nt & fwd & bwd & -> & -> & Hnt & _ & Hword & _).
  rewrite Hlen, Nat.min_id in *. cbn [fst snd].
  rewrite bool_decide_eq_true.
  pose proof (forward_pos_bound speakers e (length tokens)) as Hbound.
  split.
  - intros Heq. apply (f_equal length) in Heq.
    rewrite !length_take_le in Heq by (rewrite length_drop; lia).
    apply same_turn_boundaries; [lia|].
    assert (forward_pos speakers s < S (forward_pos speakers e)).
    { destruct (decide (s = e)) as [->|]; [lia|].
      apply Nat.lt_lt_succ_r, forward_pos_lt. lia. }
    unfold forward_pos in *. lia.
  - intros Hturn.
    pose proof (same_turn_shift speakers s e (e - s) Hturn) as He.
    replace (s + (e - s)) with e in He by lia.
    rewrite He by lia.
    replace (S (forward_pos speakers s + (e - s)) - forward_pos speakers s)
      with (S e - s) by lia.
    apply list_eq. intros d. rewrite !lookup_take, !lookup_drop.
    case_decide; [|done].
    rewrite <- (same_turn_shift speakers s e d Hturn) by lia.
    symmetry. apply Hword. lia.
Qed.

(** When every span stays inside one speaker turn, lines 39-41 pass. *)
Lemma assert_clusters_same_turn (tokens speakers : list string)
    (clusters : list cluster) :
  length speakers = length tokens →
  Forall (Forall (turn_span tokens speakers)) clusters →
  let r := add_speaker_information SPEAKER_START SPEAKER_END
             tokens speakers in
  assert_clusters tokens r.1.1 r.1.2 clusters = Ok ().
Proof.
  intros Hlen Hall r. unfold assert_clusters.
  induction Hall as [|c cs Hc _ IH]; [done|].
  cbn [rforeach].
  replace (rforeach (assert_span tokens r.1.1 r.1.2) c) with (Ok ());
    [done|].
  induction Hc as [|sp c (s & e & -> & Hse & Hturn) _ IHc]; [done|].
  cbn [rforeach]. rewrite <- IHc. unfold assert_span.
  destruct (span_check_same_turn tokens speakers s e Hlen Hse)
    as (ok & Hok & Hiff).
  fold r in Hok. rewrite Hok. cbn [rbind].
  by rewrite (proj2 Hiff Hturn).
Qed.

(** X19. For a non-empty speaker sequence of the same length as the word
    sequence and a span [0 <= start <= end < len(words)], reading the two
    Forward Map entries never raises, and the condition of the assertion on
    line 41 is true exactly when no speaker change lies strictly inside the
    span, that is when every word after [start] up to [end] has the speaker
    of its predecessor. *)
Theorem assertion_holds_iff_same_turn
    (tokens speakers : list string) (s e : nat) :
  speakers ≠ [] →
  length speakers = length tokens →
  s ≤ e < length tokens →
  let r := add_speaker_information SPEAKER_START SPEAKER_END
             tokens speakers in
  ∃ ok, span_check tokens r.1.1 r.1.2 (Z.of_nat s, Z.of_nat e) = Ok ok
        ∧ (ok = true ↔
           ∀ i, s < i ≤ e → speakers !! i = speakers !! (i - 1)).
Proof.
  intros _ Hlen Hse r.
  destruct (span_check_same_turn tokens speakers s e Hlen Hse)
    as (ok & Hok & Hiff).
  exists ok. split; [done|]. by rewrite <- same_turn_speakers.
Qed.

(** A span that crosses a speaker change fails the assertion whatever the
    marker strings and the tokenizer are: the augmented slice is longer. *)
Lemma crossing_span_raises (tokenizer : list string → BatchEncoding) :
  _tokenize SPEAKER_START SPEAKER_END tokenizer
    ["Hi"; "Bob"] [[(0, 1)%Z]] ["A"; "B"]
  = Raise AssertionError.
Proof.
  assert (add_speaker_information SPEAKER_START SPEAKER_END
            ["Hi"; "Bob"] ["A"; "B"]
          = ([SPEAKER_START; "A"; SPEAKER_END; "Hi";
              SPEAKER_START; "B"; SPEAKER_END; "Bob"],
             [3; 7],
             [None; None; None; Some 0; None; None; None; Some 1]))
    as Haug by reflexivity.
  unfold _tokenize, augment. cbn [list_truthy]. rewrite Haug.
  unfold assert_clusters, assert_span, span_check. cbn [rforeach].
  change (py_index [3; 7] 0%Z) with (Ok 3).
  change (py_index [3; 7] 1%Z) with (Ok 7). cbn [rbind].
  rewrite bool_decide_eq_false_2; [done|].
  intros Heq. apply (f_equal length) in Heq. discriminate Heq.
Qed.

(** C2, at the input [tokens = ["Hi", "Bob"]], [speakers = ["A", "B"]],
    [clusters = [[(0, 1)]]]. The speaker list is non-empty and as long as
    the word list, and the span satisfies [0 <= start <= end < len(tokens)].
    The Forward Map is [[3, 7]], so line 41 compares the two words
    [tokens[0:2]] with the five entries [new_tokens[3:8]], which also hold
    the three tokens inserted for speaker B: the assertion fails and
    [_tokenize] raises [AssertionError], whatever the marker strings and the
    tokenizer are. *)
Theorem C2_valid_span_fails_assertion
    (tokenizer : list string → BatchEncoding) :
  let tokens := ["Hi"; "Bob"] in
  let speakers := ["A"; "B"] in
  let r := add_speaker_information SPEAKER_START SPEAKER_END
             tokens speakers in
  speakers ≠ []
  ∧ length speakers = length tokens
  ∧ (0 ≤ 0 ∧ 0 ≤ 1 ∧ 1 < Z.of_nat (length tokens))%Z
  ∧ r.1.2 = [3; 7]
  ∧ py_slice tokens 0 (1 + 1) = ["Hi"; "Bob"]
  ∧ py_slice r.1.1 3 (7 + 1)
    = ["Hi"; SPEAKER_START; "B"; SPEAKER_END; "Bob"]
  ∧ _tokenize SPEAKER_START SPEAKER_END tokenizer
      tokens [[(0, 1)%Z]] speakers
    = Raise AssertionError.
Proof.
  cbv zeta. split; [discriminate|]. split; [reflexivity|].
  split; [cbn; lia|]. do 3 (split; [reflexivity|]).
  apply crossing_span_raises.
Qed.

(** Without speakers both maps are empty and the word sequence is passed on
    unchanged. *)
Lemma augment_no_speakers (tokens : list string) :
  augment SPEAKER_START SPEAKER_END tokens [] = (tokens, [], []).
Proof. done. Qed.

(** With speakers the Backward Map is as long as the augmented sequence. *)
Lemma augment_backward_length (tokens speakers : list string) :
  speakers ≠ [] →
  let r := augment SPEAKER_START SPEAKER_END tokens speakers in
  length r.2 = length r.1.1.
Proof.
  intros Hne r. subst r. unfold augment.
  destruct speakers as [|s speakers]; [done|]. cbn [list_truthy].
  by destruct (add_speaker_information_spec tokens (s :: speakers))
    as (nt & fwd & bwd & -> & _ & _ & ? & _).
Qed.

(** Reading any span through the empty Forward Map raises. *)
Lemma realign_span_no_map (enc : BatchEncoding) (sp : span) :
  realign_span enc [] sp = Raise IndexError.
Proof. destruct sp as [start end_]. cbn. by rewrite py_index_nil. Qed.

Lemma realign_no_map (enc : BatchEncoding) (clusters : list cluster) :
  Exists (λ c, c ≠ []) clusters →
  rmap (rmap (realign_span enc [])) clusters = Raise IndexError.
Proof.
  induction 1 as [c cs Hc|c cs _ IH].
  - destruct c as [|sp c]; [done|].
    cbn. by rewrite realign_span_no_map.
  - destruct c as [|sp c]; cbn.
    + by rewrite IH.
    + by rewrite realign_span_no_map.
Qed.

(** Without speakers, a document with at least one span cannot be encoded. *)
Lemma no_speakers_span_raises (tokenizer : list string → BatchEncoding)
    (tokens : list string) (clusters : list cluster) :
  Exists (λ c, c ≠ []) clusters →
  _tokenize SPEAKER_START SPEAKER_END tokenizer tokens clusters []
  = Raise IndexError.
Proof.
  intros Hex. unfold _tokenize. cbn.
  by rewrite realign_no_map.
Qed.

(** C1, at the input [tokens = ["Hi", "Bob"]], [speakers = []],
    [clusters = [[(0, 0)]]]: the augmented sequence is the word sequence,
    but both maps are empty, so the span lookup raises [IndexError] instead
    of reading the word position itself. *)
Theorem C1_no_speaker_span_lookup_raises
    (tokenizer : list string → BatchEncoding) :
  augment SPEAKER_START SPEAKER_END ["Hi"; "Bob"] []
  = (["Hi"; "Bob"], [], [])
  ∧ _tokenize SPEAKER_START SPEAKER_END tokenizer
      ["Hi"; "Bob"] [[(0, 0)%Z]] []
    = Raise IndexError.
Proof.
  split; [done|]. apply no_speakers_span_raises.
  by apply Exists_cons_hd.
Qed.

(** C5, at the input [tokens = ["Hi", "Bob"]], [speakers = []], no clusters:
    the augmented sequence has the two words, the Backward Map stored in the
    encoded document has no entry. *)
Theorem C5_no_speaker_backward_map_empty :
  let r := augment SPEAKER_START SPEAKER_END ["Hi"; "Bob"] [] in
  length r.1.1 = 2 ∧ length r.2 = 0
  ∧ ∃ doc, _tokenize SPEAKER_START SPEAKER_END unit_tokenizer
             ["Hi"; "Bob"] [] [] = Ok doc
           ∧ new_token_map doc = []
           ∧ subtoken_map doc = [None; Some 0; Some 1; None].
Proof. cbn. repeat split. eexists. by repeat split. Qed.

(** *** Layout of the augmented sequence *)

Lemma aug_init_layout (tokens speakers : list string) :
  aug_layout SPEAKER_START SPEAKER_END tokens speakers 0 aug_init.
Proof. split; cbn; [done | done | intros; lia]. Qed.

Lemma lookup_app_plus {A} (l1 l2 : list A) (k : nat) :
  (l1 ++ l2) !! (length l1 + k) = l2 !! k.
Proof.
  rewrite lookup_app_r by lia. f_equal. lia.
Qed.

Lemma aug_step_layout (tokens speakers : list string) (n : nat)
    (st : aug_state) (token speaker : string) :
  aug_inv tokens speakers n st →
  aug_layout SPEAKER_START SPEAKER_END tokens speakers n st →
  tokens !! n = Some token →
  speakers !! n = Some speaker →
  aug_layout SPEAKER_START SPEAKER_END tokens speakers (S n)
    (step st (n, (token, speaker))).
Proof.
  intros Hinv [Hbwd Hstrip Hturn] Ht Hs.
  pose proof (boundary_test _ _ _ _ _ Hinv Hs) as Htest.
  destruct Hinv as [_ Hlen Hblen _ _ _ _].
  rewrite aug_step_unfold. cbn zeta. rewrite Htest.
  set (b := is_boundary speakers n) in *.
  set (extra := if b then [SPEAKER_START; speaker; SPEAKER_END] else []).
  set (blank := if b then [None; None; None] else []).
  assert (Hextra : length extra = if b then 3 else 0) by by destruct b.
  assert (Hblank : length blank = length extra) by by destruct b.
  assert (Hpos : forward_pos speakers n
                 = length (new_tokens st) + length extra).
  { unfold forward_pos. rewrite boundaries_upto_S, Hlen, Hextra.
    fold b. destruct b; lia. }
  assert (Hold : ∀ i, i < n → forward_pos speakers i < length (new_tokens st)).
  { intros i Hi. rewrite Hlen. by apply forward_pos_bound. }
  split; cbn [new_tokens token_to_new_token_map new_token_to_token_map
              last_speaker].
  - intros p i [[Hp|[_ Hp]]%lookup_app_Some|[Hge Hp]]%lookup_app_Some.
    + by apply Hbwd.
    + destruct b; [|done]. unfold blank in Hp.
      by destruct (p - length (new_token_to_token_map st))
        as [|[|[|?]]].
    + rewrite length_app, Hblen, Hblank in Hge.
      destruct (p - length (new_token_to_token_map st ++ blank)) as [|?] eqn:Hd;
        [|done].
      injection Hp as <-.
      rewrite length_app, Hblen, Hblank in Hd. lia.
  - rewrite zip_with_app by (by rewrite !length_app, Hblen, Hblank).
    rewrite zip_with_app by done.
    rewrite !omap_app, Hstrip, (take_S_r _ _ _ Ht).
    replace (omap keep_original (zip extra blank)) with (@nil string)
      by by destruct b.
    by rewrite app_nil_r.
  - intros i Hi Hbi. destruct (decide (i = n)) as [->|Hne].
    + assert (b = true) as Hb by done.
      rewrite Hpos, Hextra, Hs, Hb, <- !app_assoc.
      unfold extra, blank. rewrite Hb.
      replace (length (new_tokens st) + 3 - 3)
        with (length (new_tokens st) + 0) by lia.
      replace (length (new_tokens st) + 3 - 2)
        with (length (new_tokens st) + 1) by lia.
      replace (length (new_tokens st) + 3 - 1)
        with (length (new_tokens st) + 2) by lia.
      rewrite !lookup_app_plus. do 3 (split; [done|]).
      intros d Hd. rewrite <- Hblen.
      replace (length (new_token_to_token_map st) + 3 - d)
        with (length (new_token_to_token_map st) + (3 - d)) by lia.
      rewrite lookup_app_plus.
      by destruct d as [|[|[|[|?]]]]; try lia.
    + destruct (Hturn i) as (H1 & H2 & H3 & H4); [lia | done |].
      pose proof (Hold i ltac:(lia)) as Hlt.
      rewrite <- !app_assoc.
      rewrite !lookup_app_l by lia.
      do 3 (split; [done|]).
      intros d Hd. rewrite lookup_app_l by (rewrite Hblen; lia).
      by apply H4.
Qed.

Lemma aug_prefix_layout (tokens speakers : list string) (n : nat) :
  n ≤ length (zip tokens speakers) →
  aug_layout SPEAKER_START SPEAKER_END tokens speakers n
    (foldl step aug_init (enumerate (take n (zip tokens speakers)))).
Proof.
  induction n as [|n IH]; intros Hn.
  - rewrite take_0. apply aug_init_layout.
  - pose proof (aug_prefix_inv tokens speakers n ltac:(lia)) as Hinv.
    destruct (lookup_lt_is_Some_2 (zip tokens speakers) n) as [[t s] Hz];
      [lia|].
    rewrite (take_S_r _ _ _ Hz). unfold enumerate.
    rewrite enumerate_from_snoc, foldl_app. cbn [foldl].
    rewrite length_take_le by lia. cbn [Nat.add].
    apply lookup_zip_with_Some in Hz as (t' & s' & [= -> ->] & Ht & Hs).
    apply aug_step_layout; [done| |done..]. apply IH. lia.
Qed.

Lemma aug_loop_layout (tokens speakers : list string) :
  aug_layout SPEAKER_START SPEAKER_END tokens speakers
    (length tokens `min` length speakers)
    (aug_loop SPEAKER_START SPEAKER_END tokens speakers).
Proof.
  unfold aug_loop. rewrite <- length_zip.
  rewrite <- (firstn_all (zip tokens speakers)) at 2.
  by apply aug_prefix_layout.
Qed.

Lemma take_min_length {A} (l : list A) (k : nat) :
  take (length l `min` k) l = take k l.
Proof.
  destruct (decide (k ≤ length l)).
  - by rewrite Nat.min_r.
  - rewrite Nat.min_l by lia. by rewrite firstn_all, take_ge by lia.
Qed.

(** X1. Dropping from the augmented sequence every entry that the Backward
    Map marks as inserted gives back the words that took part, in order:
    all of them, or the first [len(speakers)] when the speaker list is
    shorter. *)
Theorem strip_inserted_gives_words (tokens speakers : list string) :
  let r := add_speaker_information SPEAKER_START SPEAKER_END
             tokens speakers in
  omap keep_original (zip r.1.1 r.2) = take (length speakers) tokens.
Proof.
  intros r. subst r. unfold add_speaker_information. cbn [fst snd].
  rewrite (lay_strip _ _ _ _ _ _ (aug_loop_layout tokens speakers)).
  apply take_min_length.
Qed.

(** X2. Every Forward Map entry is the word position plus three for each
    speaker boundary up to and including that word, and the augmented
    sequence holds the word itself there. *)
Theorem forward_map_closed_form (tokens speakers : list string)
    (i p : nat) :
  let r := add_speaker_information SPEAKER_START SPEAKER_END
             tokens speakers in
  r.1.2 !! i = Some p →
  p = i + 3 * boundaries_upto speakers (S i)
  ∧ (∃ word, tokens !! i = Some word ∧ r.1.1 !! p = Some word)
  ∧ is_Some (speakers !! i).
Proof.
  intros r Hp. subst r.
  destruct (add_speaker_information_spec tokens speakers)
    as (nt & fwd & bwd & Hr & -> & _ & _ & Hword & _).
  rewrite Hr in *. cbn [fst snd] in *.
  apply forward_lookup_inv in Hp as [Hi ->].
  split; [done|]. rewrite Hword by done.
  destruct (lookup_lt_is_Some_2 tokens i) as [w Hw]; [lia|].
  split; [by exists w|]. apply lookup_lt_is_Some_2. lia.
Qed.

(** X3. The two maps are inverse to each other on both sides: the Backward
    Map holds original position [i] at augmented position [p] exactly when
    the Forward Map sends [i] to [p]. *)
Theorem backward_map_inverts_forward_map (tokens speakers : list string)
    (i p : nat) :
  let r := add_speaker_information SPEAKER_START SPEAKER_END
             tokens speakers in
  r.2 !! p = Some (Some i) ↔ r.1.2 !! i = Some p.
Proof.
  intros r. subst r.
  pose proof (aug_loop_layout tokens speakers) as [Hlay _ _].
  destruct (add_speaker_information_spec tokens speakers)
    as (nt & fwd & bwd & Hr & -> & _ & _ & _ & Hbwd & Hbw).
  rewrite Hr. unfold add_speaker_information in Hr.
  injection Hr as _ _ Hb. rewrite Hb in Hlay. cbn [fst snd]. split.
  - intros Hp. rewrite (Hlay p i Hp). apply forward_lookup.
    assert (i ∈ omap id bwd) as Hin.
    { apply list_elem_of_omap. exists (Some i). split; [|done].
      by apply list_elem_of_lookup_2 with p. }
    rewrite Hbw in Hin. apply elem_of_seq in Hin. lia.
  - intros [Hi ->]%forward_lookup_inv. by apply Hbwd.
Qed.

(** X4. Each speaker turn opens with the three inserted tokens: when word
    [i] starts a turn (it is the first word, or its speaker differs from the
    previous word's), the three entries just before its augmented position
    are [SPEAKER_START], the speaker of the word, and [SPEAKER_END], and the
    Backward Map has no original word for them. A word that continues a turn
    sits right after the word before it. *)
Theorem turn_opens_with_speaker_tokens (tokens speakers : list string)
    (i p : nat) :
  let r := add_speaker_information SPEAKER_START SPEAKER_END
             tokens speakers in
  r.1.2 !! i = Some p →
  (is_boundary speakers i = true →
     3 ≤ p
     ∧ r.1.1 !! (p - 3) = Some SPEAKER_START
     ∧ r.1.1 !! (p - 2) = speakers !! i
     ∧ r.1.1 !! (p - 1) = Some SPEAKER_END
     ∧ ∀ d, 1 ≤ d ≤ 3 → r.2 !! (p - d) = Some None)
  ∧ (is_boundary speakers i = false →
     ∃ j, i = S j ∧ r.1.2 !! j = Some (p - 1) ∧ 1 ≤ p).
Proof.
  intros r Hp. subst r.
  pose proof (aug_loop_layout tokens speakers) as [_ _ Hturn].
  destruct (add_speaker_information_spec tokens speakers)
    as (nt & fwd & bwd & Hr & -> & _).
  rewrite Hr in *. unfold add_speaker_information in Hr.
  injection Hr as Hn _ Hb. rewrite Hn, Hb in Hturn. cbn [fst snd] in *.
  apply forward_lookup_inv in Hp as [Hi ->]. split.
  - intros Hbi. split; [|by apply Hturn].
    unfold forward_pos. rewrite boundaries_upto_S, Hbi. lia.
  - intros Hbi. destruct i as [|j]; [done|]. exists j.
    split; [done|].
    assert (forward_pos speakers (S j) = S (forward_pos speakers j)) as ->.
    { unfold forward_pos.
      rewrite (boundaries_upto_S speakers (S j)), Hbi. lia. }
    split; [|lia]. rewrite forward_lookup by lia. f_equal. lia.
Qed.

(** *** The encoded document *)

Section Tokenize.

Variable tokenizer : list string → BatchEncoding.

Abbreviation tokenize := (_tokenize SPEAKER_START SPEAKER_END tokenizer).
Abbreviation augmented := (augment SPEAKER_START SPEAKER_END).

(** X5. Whenever [_tokenize] returns, the document keeps the words it was
    given, has one realigned cluster per input cluster with one span per
    input span, stores the Backward Map of the augmentation, and takes ids
    and subword map from the tokenizer run on the augmented sequence. *)
Theorem tokenize_keeps_cluster_shape (tokens : list string)
    (clusters : list cluster) (speakers : list string) (doc : EncodedDoc) :
  tokenize tokens clusters speakers = Ok doc →
  doc_tokens doc = tokens
  ∧ length (gold_clusters doc) = length clusters
  ∧ Forall2 (λ c c', length c' = length c) clusters (gold_clusters doc)
  ∧ new_token_map doc = (augmented tokens speakers).2
  ∧ doc_input_ids doc
    = input_ids (tokenizer (augmented tokens speakers).1.1)
  ∧ subtoken_map doc
    = word_ids (tokenizer (augmented tokens speakers).1.1).
Proof.
  unfold _tokenize.
  destruct (augment _ _ tokens speakers) as [[nt fwd] bwd]. cbn [fst snd].
  destruct (if list_truthy speakers then _ else _) as [[]|e]; [|done].
  cbn [rbind].
  destruct (rmap (rmap (realign_span _ fwd)) clusters)
    as [gold|e] eqn:Hgold; [|done]. cbn [rbind].
  destruct (py_index _ 0) as [len0|e]; [|done]. cbn [rbind].
  intros [= <-]. cbn.
  apply rmap_Ok in Hgold.
  assert (Forall2 (λ c c', length c' = length c) clusters gold) as Hshape.
  { eapply Forall2_impl; [exact Hgold|]. intros c c' Hc. cbn in Hc.
    apply rmap_Ok in Hc. symmetry. by eapply Forall2_length. }
  repeat split; try done. symmetry. by eapply Forall2_length.
Qed.

(** The assertion on one span raises nothing but [IndexError] and
    [AssertionError]. *)
Lemma assert_span_errors (tokens nt : list string) (fwd : list nat)
    (sp : span) (e : exn) :
  assert_span tokens nt fwd sp = Raise e →
  e = IndexError ∨ e = AssertionError.
Proof.
  destruct sp as [start end_]. unfold assert_span, span_check.
  unfold py_index.
  repeat (case_match; cbn; try by (intros [= <-]; auto)); done.
Qed.

Lemma py_index_out_of_range {A} (l : list A) (i : Z) :
  (i < - Z.of_nat (length l) ∨ Z.of_nat (length l) ≤ i)%Z →
  py_index l i = Raise IndexError.
Proof.
  intros Hi. unfold py_index.
  destruct (Z.ltb_spec i 0).
  - destruct (Z.ltb_spec (i + Z.of_nat (length l)) 0); [done | lia].
  - destruct (Z.ltb_spec i 0); [lia|].
    by destruct (Z.leb_spec (Z.of_nat (length l)) i); [|lia].
Qed.

(** A position outside the index range of a map of length [n]. *)
Lemma assert_span_out_of_range (tokens nt : list string) (fwd : list nat)
    (start end_ : Z) :
  let n := Z.of_nat (length fwd) in
  (start < - n ∨ n ≤ start ∨ end_ < - n ∨ n ≤ end_)%Z →
  assert_span tokens nt fwd (start, end_) = Raise IndexError.
Proof.
  intros n Hout. unfold assert_span, span_check.
  destruct (decide (start < - n ∨ n ≤ start)%Z) as [Hs|Hs].
  - by rewrite py_index_out_of_range.
  - destruct (py_index fwd start) as [a|e] eqn:Ha.
    + cbn. rewrite py_index_out_of_range by lia. done.
    + cbn. unfold py_index in Ha. repeat case_match; congruence.
Qed.

Lemma augment_forward_length (tokens speakers : list string) :
  length (augmented tokens speakers).1.2
  = if list_truthy speakers then length tokens `min` length speakers else 0.
Proof.
  unfold augment. destruct (list_truthy speakers); [|done].
  destruct (add_speaker_information_spec tokens speakers)
    as (nt & fwd & bwd & -> & -> & _).
  cbn [fst snd]. by rewrite length_fmap, length_seq.
Qed.

(** X6. A document with a span whose start or end lies outside the index
    range of the Forward Map is never encoded: [_tokenize] raises
    [IndexError] or [AssertionError]. The map has [min(len(tokens),
    len(speakers))] entries with speakers and none without, and an index
    [i] is in range when [-n <= i < n]. *)
Theorem out_of_range_span_never_encoded (tokens : list string)
    (clusters : list cluster) (speakers : list string) :
  let n := Z.of_nat (if list_truthy speakers
                     then length tokens `min` length speakers else 0) in
  Exists (Exists (λ sp : span,
                    (sp.1 < - n ∨ n ≤ sp.1 ∨ sp.2 < - n ∨ n ≤ sp.2)%Z))
         clusters →
  ∃ e, tokenize tokens clusters speakers = Raise e
       ∧ (e = IndexError ∨ e = AssertionError).
Proof.
  intros n Hout. subst n. rewrite <- augment_forward_length in Hout.
  destruct speakers as [|s speakers].
  { exists IndexError. split; [|by left].
    apply no_speakers_span_raises.
    eapply Exists_impl; [exact Hout|]. intros c Hc. by destruct Hc. }
  unfold _tokenize.
  destruct (augment _ _ tokens (s :: speakers)) as [[nt fwd] bwd].
  cbn [fst snd list_truthy] in *.
  destruct (assert_clusters tokens nt fwd clusters) as [[]|e] eqn:Hassert.
  - exfalso. apply rforeach_Ok in Hassert.
    apply Exists_exists in Hout as (c & Hc & Hsp).
    rewrite Forall_forall in Hassert. apply Hassert in Hc.
    apply rforeach_Ok in Hc.
    apply Exists_exists in Hsp as ([start end_] & Hsp & Hrange).
    rewrite Forall_forall in Hc. apply Hc in Hsp.
    by rewrite assert_span_out_of_range in Hsp.
  - exists e. split; [done|].
    apply rforeach_Raise, Exists_exists in Hassert as (c & _ & Hc).
    apply rforeach_Raise, Exists_exists in Hc as (sp & _ & Hsp).
    by eapply assert_span_errors.
Qed.

Lemma rmap_total {A B} (f : A → result B) (l : list A) :
  Forall (λ x, ∃ y, f x = Ok y) l → ∃ ys, rmap f l = Ok ys.
Proof.
  induction 1 as [|x l [y Hy] _ [ys Hys]]; [by exists []|].
  exists (y :: ys). cbn. by rewrite Hy, Hys.
Qed.

Lemma realign_span_nat (enc : BatchEncoding) (speakers : list string)
    (n s e : nat) (r1 r2 : Z * Z) :
  s < n → e < n →
  word_to_tokens enc (forward_pos speakers s) = Ok r1 →
  word_to_tokens enc (forward_pos speakers e) = Ok r2 →
  realign_span enc (forward_pos speakers <$> seq 0 n)
    (Z.of_nat s, Z.of_nat e)
  = Ok (r1.1, (r2.2 - 1)%Z).
Proof.
  intros Hs He H1 H2. unfold realign_span.
  rewrite (py_index_nat _ s (forward_pos speakers s))
    by by apply forward_lookup.
  cbn [rbind]. rewrite H1. cbn [rbind].
  rewrite (py_index_nat _ e (forward_pos speakers e))
    by by apply forward_lookup.
  cbn [rbind]. by rewrite H2.
Qed.

(** X7. With a non-empty speaker list as long as the word list, spans that
    each stay inside one speaker turn, and a tokenizer that has a subword
    range for every augmented word and reports a length, [_tokenize]
    returns a document. Each span [[s, e]] is realigned to the first
    subword of the augmented position of [s] and the last subword of the
    augmented position of [e]. *)
Theorem tokenize_succeeds_inside_turns (tokens : list string)
    (clusters : list cluster) (speakers : list string) (len0 : Z) :
  speakers ≠ [] →
  length speakers = length tokens →
  Forall (Forall (turn_span tokens speakers)) clusters →
  let nt := (add_speaker_information SPEAKER_START SPEAKER_END
               tokens speakers).1.1 in
  let enc := tokenizer nt in
  (∀ p, p < length nt → ∃ r, word_to_tokens enc p = Ok r) →
  py_index (enc_length enc) 0 = Ok len0 →
  ∃ doc,
    tokenize tokens clusters speakers = Ok doc
    ∧ doc_length doc = len0
    ∧ ∀ j c k s e,
        clusters !! j = Some c →
        c !! k = Some (Z.of_nat s, Z.of_nat e) →
        ∃ c' r1 r2,
          gold_clusters doc !! j = Some c'
          ∧ word_to_tokens enc (forward_pos speakers s) = Ok r1
          ∧ word_to_tokens enc (forward_pos speakers e) = Ok r2
          ∧ c' !! k = Some (r1.1, (r2.2 - 1)%Z).
Proof.
  intros Hne Hlen Hturn nt enc Hwords Hlen0.
  pose proof (assert_clusters_same_turn tokens speakers clusters Hlen Hturn)
    as Hassert. cbn zeta in Hassert.
  subst enc nt. unfold _tokenize, augment.
  destruct speakers as [|s0 speakers]; [done|]. cbn [list_truthy].
  destruct (add_speaker_information_spec tokens (s0 :: speakers))
    as (nt & fwd & bwd & Hr & -> & Hnt & _).
  rewrite Hr in *. cbn [fst snd] in *. rewrite Hassert. cbn [rbind].
  rewrite Hlen, Nat.min_id in *.
  set (n := length tokens) in *.
  set (sp := s0 :: speakers) in *.
  set (enc := tokenizer nt) in *.
  assert (∀ s e, turn_span tokens sp (Z.of_nat s, Z.of_nat e) →
            ∃ r1 r2, word_to_tokens enc (forward_pos sp s) = Ok r1
              ∧ word_to_tokens enc (forward_pos sp e) = Ok r2
              ∧ realign_span enc (forward_pos sp <$> seq 0 n)
                  (Z.of_nat s, Z.of_nat e)
                = Ok (r1.1, (r2.2 - 1)%Z)) as Hspan.
  { intros s e (s' & e' & [= Hs He] & Hse & _).
    apply Nat2Z.inj in Hs, He. subst s' e'. fold n in Hse.
    destruct (Hwords (forward_pos sp s)) as [r1 H1].
    { rewrite Hnt. apply forward_pos_bound. lia. }
    destruct (Hwords (forward_pos sp e)) as [r2 H2].
    { rewrite Hnt. apply forward_pos_bound. lia. }
    exists r1, r2. do 2 (split; [done|]).
    apply realign_span_nat; [lia | lia | done | done]. }
  destruct (rmap_total (rmap (realign_span enc (forward_pos sp <$> seq 0 n)))
              clusters) as [gold Hgold].
  { eapply Forall_impl; [exact Hturn|]. intros c Hc. cbn.
    apply rmap_total. eapply Forall_impl; [exact Hc|].
    intros x Hx. cbn.
    destruct Hx as (s & e & -> & Hx).
    destruct (Hspan s e) as (r1 & r2 & _ & _ & Hre); [by exists s, e|].
    eauto. }
  rewrite Hgold. cbn [rbind]. rewrite Hlen0. cbn [rbind].
  eexists. split; [done|]. split; [done|]. cbn.
  intros j c k s e Hc Hk.
  apply rmap_Ok in Hgold.
  destruct (Forall2_lookup_l _ _ _ _ _ Hgold Hc) as (c' & Hc' & Hcc').
  cbn in Hcc'. apply rmap_Ok in Hcc'.
  destruct (Forall2_lookup_l _ _ _ _ _ Hcc' Hk) as (y & Hy & Hre).
  cbv beta in Hre.
  destruct (Hspan s e) as (r1 & r2 & H1 & H2 & Hre').
  { eapply Forall_lookup_1; [|exact Hk].
    eapply Forall_lookup_1; [exact Hturn | exact Hc]. }
  exists c', r1, r2. do 3 (split; [done|]).
  rewrite Hre' in Hre. by injection Hre as <-.
Qed.

Lemma rmap_empty_clusters (enc : BatchEncoding) (fwd : list nat)
    (clusters : list cluster) :
  Forall (λ c, c = []) clusters →
  rmap (rmap (realign_span enc fwd)) clusters = Ok clusters.
Proof.
  induction 1 as [|c cs -> _ IH]; [done|]. cbn. by rewrite IH.
Qed.

(** X8. Without speakers, a document none of whose clusters has a span is
    encoded from the words as they are: the result is that of the tokenizer
    on the word sequence, with an empty Backward Map, and fails only when
    the tokenizer reports no length. *)
Theorem tokenize_without_speakers_or_spans (tokens : list string)
    (clusters : list cluster) :
  Forall (λ c, c = []) clusters →
  tokenize tokens clusters []
  = let enc := tokenizer tokens in
    let* len0 := py_index (enc_length enc) 0 in
    Ok {| doc_tokens := tokens;
          doc_input_ids := input_ids enc;
          doc_length := len0;
          gold_clusters := clusters;
          new_token_map := [];
          subtoken_map := word_ids enc |}.
Proof.
  intros Hempty. unfold _tokenize. cbn.
  by rewrite rmap_empty_clusters.
Qed.

(** The largest length, as [max] computes it, is the maximum of the
    lengths. *)
Lemma max_len_max_list {A} (c : list A) (cs : list (list A)) :
  max_len c cs = max_list (length <$> c :: cs).
Proof.
  unfold max_len. cbn. generalize (length c) as m.
  induction cs as [|c' cs IH]; intros m; cbn; [lia|].
  rewrite IH. lia.
Qed.

(** X9. When [encode] returns, all three fields were present, the encoded
    part is what [_tokenize] gives for them, [num_clusters] is the number of
    input clusters and [max_cluster_size] the largest number of spans in an
    input cluster, both 0 when there is no cluster. *)
Theorem encode_counts_clusters (example : Example) (r : EncodedExample) :
  encode SPEAKER_START SPEAKER_END tokenizer example = Ok r →
  ∃ tokens clusters speakers,
    ex_tokens example = Some tokens
    ∧ ex_clusters example = Some clusters
    ∧ ex_speakers example = Some speakers
    ∧ tokenize tokens clusters speakers = Ok (encoded r)
    ∧ num_clusters r = length clusters
    ∧ max_cluster_size r = max_list (length <$> clusters).
Proof.
  unfold encode, field.
  destruct (ex_tokens example) as [tokens|]; [|done].
  destruct (ex_clusters example) as [clusters|]; [|done].
  destruct (ex_speakers example) as [speakers|]; [|done]. cbn [rbind].
  destruct (tokenize tokens clusters speakers) as [doc|e] eqn:Hdoc; [|done].
  cbn [rbind]. intros [= <-]. cbn.
  exists tokens, clusters, speakers. do 4 (split; [done|]).
  destruct (tokenize_keeps_cluster_shape _ _ _ _ Hdoc)
    as (_ & Hn & Hshape & _).
  assert (length <$> gold_clusters doc = length <$> clusters) as Hlens.
  { clear Hn Hdoc. induction Hshape as [|c c' cs cs' Hc _ IH]; [done|].
    cbn. by rewrite Hc, IH. }
  destruct (gold_clusters doc) as [|c cs] eqn:Hgold.
  - destruct clusters; [done | discriminate Hn].
  - cbn [list_truthy]. split; [done|].
    by rewrite max_len_max_list, Hlens.
Qed.

End Tokenize.

End Augmentation.


(** Worked instances. The marker strings below are placeholders: none of
    the statements depends on their value. *)

Lemma C3_augmented_length_witness :
  length ["Hi"; "Bob"; "again"] = length ["A"; "B"; "A"]
  ∧ length (add_speaker_information "<speaker>" "</speaker>"
              ["Hi"; "Bob"; "again"] ["A"; "B"; "A"]).1.1
    = 3 + 3 * 3.
Proof.
  split; [reflexivity|].
  pose proof (C3_augmented_length "<speaker>" "</speaker>"
                ["Hi"; "Bob"; "again"] ["A"; "B"; "A"] eq_refl) as [H _].
  exact H.
Defined.

Lemma C4_forward_backward_round_trip_witness :
  ["A"; "B"] ≠ []
  ∧ length ["Hi"; "Bob"] = length ["A"; "B"]
  ∧ ∀ i, i < 2 →
      ∃ p, [3; 7] !! i = Some p
           ∧ [None; None; None; Some 0; None; None; None; Some 1] !! p
             = Some (Some i).
Proof.
  split; [discriminate|]. split; [reflexivity|].
  apply (C4_forward_backward_round_trip "<speaker>" "</speaker>"
           ["Hi"; "Bob"] ["A"; "B"]); [discriminate | reflexivity].
Defined.

Lemma C10_short_speakers_truncate_witness :
  ["A"; "B"] ≠ []
  ∧ length ["A"; "B"] < length ["Hi"; "Bob"; "dropped"]
  ∧ add_speaker_information "<speaker>" "</speaker>"
      ["Hi"; "Bob"; "dropped"] ["A"; "B"]
    = add_speaker_information "<speaker>" "</speaker>"
        ["Hi"; "Bob"] ["A"; "B"].
Proof.
  split; [discriminate|]. split; [simpl; lia|].
  apply (C10_short_speakers_truncate "<speaker>" "</speaker>"
           ["Hi"; "Bob"; "dropped"] ["A"; "B"]); [discriminate | simpl; lia].
Defined.

Lemma assertion_holds_iff_same_turn_witness :
  ["A"; "A"] ≠ []
  ∧ length ["A"; "A"] = length ["Hi"; "Bob"]
  ∧ 0 ≤ 1 < length ["Hi"; "Bob"]
  ∧ ∃ ok, span_check ["Hi"; "Bob"]
            ["<speaker>"; "A"; "</speaker>"; "Hi"; "Bob"] [3; 4]
            (0%Z, 1%Z) = Ok ok
          ∧ (ok = true ↔
             ∀ i, 0 < i ≤ 1 → ["A"; "A"] !! i = ["A"; "A"] !! (i - 1)).
Proof.
  split; [discriminate|]. split; [reflexivity|]. split; [simpl; lia|].
  apply (assertion_holds_iff_same_turn "<speaker>" "</speaker>"
           ["Hi"; "Bob"] ["A"; "A"] 0 1);
    [discriminate | reflexivity | simpl; lia].
Defined.

(** Worked instances of the layout and encoding properties. *)

Lemma forward_map_closed_form_witness :
  (add_speaker_information "<speaker>" "</speaker>"
     ["Hi"; "Bob"] ["A"; "B"]).1.2 !! 1 = Some 7
  ∧ 7 = 1 + 3 * boundaries_upto ["A"; "B"] 2.
Proof.
  split; [reflexivity|].
  exact (proj1 (forward_map_closed_form "<speaker>" "</speaker>"
                  ["Hi"; "Bob"] ["A"; "B"] 1 7 eq_refl)).
Defined.

Lemma turn_opens_with_speaker_tokens_witness :
  (add_speaker_information "<speaker>" "</speaker>"
     ["Hi"; "Bob"] ["A"; "B"]).1.2 !! 1 = Some 7
  ∧ is_boundary ["A"; "B"] 1 = true
  ∧ (add_speaker_information "<speaker>" "</speaker>"
       ["Hi"; "Bob"] ["A"; "B"]).1.1 !! (7 - 2) = Some "B".
Proof.
  split; [reflexivity|]. split; [reflexivity|].
  pose proof (proj1 (turn_opens_with_speaker_tokens
                       "<speaker>" "</speaker>"
                       ["Hi"; "Bob"] ["A"; "B"] 1 7 eq_refl) eq_refl)
    as (_ & _ & H & _).
  exact H.
Defined.

Lemma tokenize_keeps_cluster_shape_witness :
  ∃ doc,
    _tokenize "<speaker>" "</speaker>" unit_tokenizer
      ["Hi"; "Bob"] [[(0, 0)%Z; (1, 1)%Z]; []] ["A"; "A"] = Ok doc
    ∧ length (gold_clusters doc) = 2.
Proof.
  destruct (_tokenize "<speaker>" "</speaker>" unit_tokenizer
              ["Hi"; "Bob"] [[(0, 0)%Z; (1, 1)%Z]; []] ["A"; "A"])
    as [doc|e] eqn:Hdoc; [|by vm_compute in Hdoc].
  exists doc. split; [reflexivity|].
  exact (proj1 (proj2 (tokenize_keeps_cluster_shape
                         "<speaker>" "</speaker>" unit_tokenizer
                         _ _ _ doc Hdoc))).
Defined.

Lemma out_of_range_span_never_encoded_witness :
  Exists (Exists (λ sp : span,
                    (sp.1 < - 1 ∨ 1 ≤ sp.1 ∨ sp.2 < - 1 ∨ 1 ≤ sp.2)%Z))
         [[(0, 1)%Z]]
  ∧ ∃ e, _tokenize "<speaker>" "</speaker>" unit_tokenizer
           ["Hi"] [[(0, 1)%Z]] ["A"] = Raise e
         ∧ (e = IndexError ∨ e = AssertionError).
Proof.
  assert (Exists (Exists (λ sp : span,
                    (sp.1 < - 1 ∨ 1 ≤ sp.1 ∨ sp.2 < - 1 ∨ 1 ≤ sp.2)%Z))
                 [[(0, 1)%Z]]) as Hout.
  { do 2 apply Exists_cons_hd. cbn. lia. }
  split; [exact Hout|].
  exact (out_of_range_span_never_encoded "<speaker>" "</speaker>"
           unit_tokenizer ["Hi"] [[(0, 1)%Z]] ["A"] Hout).
Defined.

Lemma tokenize_succeeds_inside_turns_witness :
  ["A"; "A"] ≠ []
  ∧ length ["A"; "A"] = length ["Hi"; "Bob"]
  ∧ Forall (Forall (turn_span ["Hi"; "Bob"] ["A"; "A"])) [[(0, 1)%Z]]
  ∧ ∃ doc, _tokenize "<speaker>" "</speaker>" unit_tokenizer
             ["Hi"; "Bob"] [[(0, 1)%Z]] ["A"; "A"] = Ok doc
           ∧ doc_length doc = 7%Z.
Proof.
  assert (Forall (Forall (turn_span ["Hi"; "Bob"] ["A"; "A"]))
                 [[(0, 1)%Z]]) as Hturn.
  { repeat constructor. exists 0, 1. split; [done|]. split; [cbn; lia|].
    intros i Hi. by replace i with 1 by lia. }
  split; [discriminate|]. split; [reflexivity|]. split; [exact Hturn|].
  destruct (tokenize_succeeds_inside_turns "<speaker>" "</speaker>"
              unit_tokenizer ["Hi"; "Bob"] [[(0, 1)%Z]] ["A"; "A"] 7%Z)
    as (doc & Hdoc & Hlen & _);
    [discriminate | reflexivity | exact Hturn | | reflexivity | by exists doc].
  intros p Hp. eexists. unfold unit_tokenizer. cbn [word_to_tokens].
  by rewrite decide_True by exact Hp.
Defined.

Lemma tokenize_without_speakers_or_spans_witness :
  Forall (λ c : cluster, c = []) [[]; []]
  ∧ ∃ doc, _tokenize "<speaker>" "</speaker>" unit_tokenizer
             ["Hi"; "Bob"] [[]; []] [] = Ok doc
           ∧ new_token_map doc = [] ∧ gold_clusters doc = [[]; []].
Proof.
  assert (Forall (λ c : cluster, c = []) [[]; []]) as Hempty
    by by repeat constructor.
  split; [exact Hempty|].
  rewrite (tokenize_without_speakers_or_spans "<speaker>" "</speaker>"
             unit_tokenizer ["Hi"; "Bob"] [[]; []] Hempty).
  eexists. by repeat split.
Defined.

Lemma encode_counts_clusters_witness :
  ∃ r, encode "<speaker>" "</speaker>" unit_tokenizer
         {| ex_tokens := Some ["Hi"; "Bob"];
            ex_clusters := Some [[(0, 0)%Z; (1, 1)%Z]; [(0, 1)%Z]];
            ex_speakers := Some ["A"; "A"] |} = Ok r
       ∧ num_clusters r = 2 ∧ max_cluster_size r = 2.
Proof.
  destruct (encode "<speaker>" "</speaker>" unit_tokenizer
              {| ex_tokens := Some ["Hi"; "Bob"];
                 ex_clusters := Some [[(0, 0)%Z; (1, 1)%Z]; [(0, 1)%Z]];
                 ex_speakers := Some ["A"; "A"] |})
    as [r|e] eqn:Hr; [|by vm_compute in Hr].
  exists r. split; [reflexivity|].
  destruct (encode_counts_clusters "<speaker>" "</speaker>" unit_tokenizer
              _ r Hr)
    as (tokens & clusters & speakers & _ & [= <-] & _ & _ & Hn & Hm).
  by split.
Defined.

End AlignerFacts.

(** ** Record normalisation *)

Module NormalizeFacts.
Import Normalize.

Section Priority.

Variable flatten : pyval → pyval.
Variable nlp_texts : pyval → list string.

Abbreviation prepare := (prepare_for_encode flatten nlp_texts).

Lemma has_content_lookup (ex : example) (k : string) :
  has_content ex k = true → ∃ v, ex !! k = Some v ∧ truthy v = true.
Proof.
  unfold has_content. destruct (ex !! k) as [v|]; [eauto | done].
Qed.

Lemma has_content_getitem (ex : example) (k : string) :
  has_content ex k = true → ∃ v, getitem ex k = Ok v ∧ ex !! k = Some v.
Proof.
  intros (v & Hv & _)%has_content_lookup. exists v.
  unfold getitem. by rewrite Hv.
Qed.

(** The sentence branch reads [example['speakers']] without a membership
    test: a record that has sentences but no speakers field raises
    [KeyError]. Records built by [create] always carry the field. *)
Lemma sentences_without_speakers (ex : example) :
  has_content ex "tokens" = false →
  has_content ex "sentences" = true →
  ex !! "speakers" = None →
  prepare ex = Raise KeyError.
Proof.
  intros Htok Hsent Hspk. unfold prepare_for_encode.
  rewrite Htok, Hsent.
  destruct (has_content_getitem _ _ Hsent) as (v & -> & _). cbn.
  unfold getitem. by rewrite lookup_insert_ne, Hspk.
Qed.

(** C6, at the input [{'sentences': [['Hi']]}], a record with non-empty
    sentences and no [speakers] field. The record has content, so
    [ValueError] is not raised, and the token test fails, so the sentence
    branch is taken; line 81 flattens the sentences, and line 82 then reads
    [example['speakers']] without the membership test that guards [tokens],
    [sentences] and [text]: [KeyError] is raised and no word sequence is
    selected, whatever [util.flatten] and the sentence splitter are. *)
Theorem C6_sentences_without_speakers_raise :
  let ex : example := {[ "sentences" := PList [PList [PStr "Hi"]] ]} in
  has_content ex "tokens" = false
  ∧ has_content ex "sentences" = true
  ∧ prepare ex = Raise KeyError
  ∧ prepare ex ≠ Raise ValueError
  ∧ ∀ ex', prepare ex ≠ Ok ex'.
Proof.
  cbv zeta.
  assert (prepare {[ "sentences" := PList [PList [PStr "Hi"]] ]}
          = Raise KeyError) as Hraise
    by (apply sentences_without_speakers; reflexivity).
  split; [reflexivity|]. split; [reflexivity|]. split; [exact Hraise|].
  rewrite Hraise. split; [discriminate|]. intros ex'. discriminate.
Qed.

(** X20. [prepare_for_encode] raises [ValueError] exactly when none of
    [tokens], [sentences], [text] is present and non-empty. Otherwise the
    source of the word sequence is chosen by priority: a non-empty token list
    leaves the record as it is; else, for a record that has a [speakers]
    field, non-empty sentences are flattened into [tokens] and the speaker
    list is flattened with them, while a record without that field raises
    [KeyError]; else the sentence splitter is run over the text and its
    token texts become [tokens]. *)
Theorem prepare_for_encode_priority (ex : example) :
  (prepare ex = Raise ValueError
   ↔ has_content ex "tokens" = false
     ∧ has_content ex "sentences" = false
     ∧ has_content ex "text" = false)
  ∧ (has_content ex "tokens" = true → prepare ex = Ok ex)
  ∧ (∀ sents spk,
       has_content ex "tokens" = false →
       has_content ex "sentences" = true →
       ex !! "sentences" = Some sents →
       ex !! "speakers" = Some spk →
       prepare ex
       = Ok (<["speakers" := flatten spk]>
               (<["tokens" := flatten sents]> ex)))
  ∧ (∀ txt,
       has_content ex "tokens" = false →
       has_content ex "sentences" = false →
       has_content ex "text" = true →
       ex !! "text" = Some txt →
       prepare ex
       = Ok (<["tokens" := PList (PStr <$> nlp_texts txt)]> ex))
  ∧ (has_content ex "tokens" = false →
     has_content ex "sentences" = true →
     ex !! "speakers" = None →
     prepare ex = Raise KeyError).
Proof.
  split; [|split; [|split; [|split; [|by apply sentences_without_speakers]]]];
    unfold prepare_for_encode; [split|..].
  - destruct (has_content ex "tokens"); [done|].
    destruct (has_content ex "sentences") eqn:Hsent.
    + destruct (has_content_getitem _ _ Hsent) as (v & -> & _). cbn.
      unfold getitem. by destruct (_ !! "speakers").
    + destruct (has_content ex "text") eqn:Htext; [|done].
      by destruct (has_content_getitem _ _ Htext) as (v & -> & _).
  - by intros (-> & -> & ->).
  - by intros ->.
  - intros sents spk -> -> Hsents Hspk. unfold getitem.
    rewrite Hsents. cbn. by rewrite lookup_insert_ne, Hspk.
  - intros txt -> -> -> Htxt. unfold getitem. by rewrite Htxt.
Qed.


(** *** Reading the records *)

Lemma setdefault_union (k : string) (v : pyval) (doc : example) :
  setdefault k v doc = doc ∪ {[ k := v ]}.
Proof.
  unfold setdefault. apply map_eq. intros k'.
  rewrite lookup_union.
  destruct (doc !! k) as [x|] eqn:Hk.
  - destruct (decide (k = k')) as [<-|Hne].
    + by rewrite Hk, lookup_singleton_eq.
    + rewrite lookup_singleton_ne by done. by destruct (doc !! k').
  - destruct (decide (k = k')) as [<-|Hne].
    + by rewrite lookup_insert_eq, Hk, lookup_singleton_eq.
    + rewrite lookup_insert_ne, lookup_singleton_ne by done.
      by destruct (doc !! k').
Qed.

Lemma has_key_false (doc : example) (k : string) :
  has_key doc k = false ↔ doc !! k = None.
Proof.
  unfold has_key. rewrite bool_decide_eq_false.
  symmetry. apply eq_None_not_Some.
Qed.

(** X10. A parsed line that has none of the keys [text], [tokens],
    [sentences] raises [ValueError]. Any other line is returned with its own
    fields untouched and each absent field filled in: [doc_key] with the
    line number as a string, [text] with the empty string, the four list
    fields with the empty list. *)
Theorem read_line_fills_absent_fields (i : nat) (doc : example) :
  read_line i doc
  = if decide (has_content_key doc)
    then Ok (doc ∪ line_defaults i)
    else Raise ValueError.
Proof.
  unfold read_line.
  destruct (has_key doc "text") eqn:Htext;
    [|destruct (has_key doc "tokens") eqn:Htok;
      [|destruct (has_key doc "sentences") eqn:Hsent]]; cbn [negb andb].
  4: { apply has_key_false in Htext, Htok, Hsent.
       rewrite decide_False; [done|].
       unfold has_content_key. rewrite Htext, Htok, Hsent.
       by intros [[? [=]]|[[? [=]]|[? [=]]]]. }
  all: rewrite decide_True
    by (unfold has_content_key, has_key in *;
        repeat match goal with
               | H : bool_decide _ = true |- _ =>
                   apply bool_decide_eq_true in H
               end; auto).
  all: f_equal; rewrite !setdefault_union, <- !(assoc_L (∪));
    f_equal; unfold line_defaults.
  all: apply map_eq; intros k; rewrite !lookup_union;
    repeat (rewrite lookup_insert;
            destruct (decide (_ = k)) as [<-|?]; [done|]);
    by rewrite ?lookup_singleton_ne, ?lookup_empty by done.
Qed.


Lemma read_lines_from (k : nat) (docs : list example) :
  rmap (λ x, read_line x.1 x.2) (enumerate_from k docs)
  = if decide (Forall has_content_key docs)
    then Ok (imap (λ i doc, doc ∪ line_defaults (k + i)) docs)
    else Raise ValueError.
Proof.
  revert k. induction docs as [|doc docs IH]; intros k.
  - by rewrite decide_True by constructor.
  - cbn [enumerate_from rmap fst snd].
    rewrite read_line_fills_absent_fields, IH.
    destruct (decide (has_content_key doc)) as [Hdoc|Hdoc]; cbn [rbind].
    + destruct (decide (Forall has_content_key docs)) as [Hdocs|Hdocs];
        cbn [rbind].
      * rewrite decide_True by by constructor.
        cbn [imap]. rewrite Nat.add_0_r. do 2 f_equal.
        apply imap_ext. intros i d _. cbn. do 2 f_equal. lia.
      * rewrite decide_False; [done|]. by inversion 1.
    + rewrite decide_False; [done|]. by inversion 1.
Qed.

(** X11. [read_jsonlines] returns one record per parsed line, in order, each
    line keeping its fields and getting the defaults of its line number,
    when every line has at least one of [text], [tokens], [sentences];
    otherwise it raises [ValueError] and returns no record. *)
Theorem read_jsonlines_all_or_nothing (docs : list example) :
  read_jsonlines docs
  = if decide (Forall has_content_key docs)
    then Ok (imap (λ i doc, doc ∪ line_defaults i) docs)
    else Raise ValueError.
Proof. apply (read_lines_from 0). Qed.

Lemma line_defaults_lookup (i : nat) (k : string) :
  k ∈ record_fields → is_Some (line_defaults i !! k).
Proof.
  unfold record_fields, line_defaults. rewrite !elem_of_cons.
  intros [->|[->|[->|[->|[->|[->|[]%elem_of_nil]]]]]]; by eexists.
Qed.

(** X12. A record that came through [read_line] never makes
    [prepare_for_encode] raise [KeyError]: all six fields are there, so the
    only exception left is [ValueError], raised when [tokens], [sentences]
    and [text] are all empty. A line whose only content key holds an empty
    value passes [read_line] and fails here. *)
Theorem prepare_after_read_line (i : nat) (doc out : example) :
  read_line i doc = Ok out →
  (∀ k, k ∈ record_fields → is_Some (out !! k))
  ∧ (∀ e, prepare out = Raise e →
          e = ValueError
          ∧ has_content out "tokens" = false
          ∧ has_content out "sentences" = false
          ∧ has_content out "text" = false).
Proof.
  rewrite read_line_fills_absent_fields.
  destruct (decide (has_content_key doc)); [|done]. intros [= <-].
  assert (∀ k, k ∈ record_fields →
               is_Some ((doc ∪ line_defaults i) !! k)) as Hfields.
  { intros k Hk. rewrite lookup_union.
    destruct (line_defaults_lookup i k Hk) as [v ->].
    by destruct (doc !! k). }
  split; [done|]. intros e. unfold prepare_for_encode.
  destruct (has_content _ "tokens"); [done|].
  destruct (has_content _ "sentences") eqn:Hsent.
  - destruct (has_content_getitem _ _ Hsent) as (v & -> & _). cbn [rbind].
    unfold getitem. rewrite lookup_insert_ne by done.
    destruct (Hfields "speakers") as [spk ->]; [|done].
    unfold record_fields. rewrite !elem_of_cons. auto 10.
  - destruct (has_content _ "text") eqn:Htext.
    + by destruct (has_content_getitem _ _ Htext) as (v & -> & _).
    + by intros [= <-].
Qed.

(** X13. When [prepare_for_encode] returns, the record has a [tokens] field
    and every field other than [tokens] and [speakers] is as it was;
    [speakers] changes only on the sentence branch. *)
Theorem prepare_keeps_other_fields (ex ex' : example) :
  prepare ex = Ok ex' →
  is_Some (ex' !! "tokens")
  ∧ (∀ k, k ≠ "tokens" → k ≠ "speakers" → ex' !! k = ex !! k)
  ∧ (has_content ex "tokens" = true ∨ has_content ex "sentences" = false →
     ex' !! "speakers" = ex !! "speakers").
Proof.
  unfold prepare_for_encode.
  destruct (has_content ex "tokens") eqn:Htok.
  { intros [= <-]. split; [|by split].
    destruct (has_content_lookup _ _ Htok) as (v & -> & _). by eexists. }
  destruct (has_content ex "sentences") eqn:Hsent.
  { destruct (has_content_getitem _ _ Hsent) as (v & -> & _). cbn [rbind].
    destruct (getitem _ "speakers") as [spk|]; [|done]. cbn [rbind].
    intros [= <-]. split; [|split].
    - rewrite lookup_insert_ne, lookup_insert_eq by done. by eexists.
    - intros k ??. by rewrite !lookup_insert_ne.
    - by intros [|]. }
  destruct (has_content ex "text") eqn:Htext; [|done].
  destruct (has_content_getitem _ _ Htext) as (v & -> & _). cbn [rbind].
  intros [= <-]. split; [|split].
  - rewrite lookup_insert_eq. by eexists.
  - intros k ??. by rewrite lookup_insert_ne.
  - intros _. by rewrite lookup_insert_ne.
Qed.

End Priority.


Lemma prepare_for_encode_priority_witness :
  has_content grouped_record "tokens" = false
  ∧ has_content grouped_record "sentences" = true
  ∧ prepare_for_encode concat_lists whole_text grouped_record
    = Ok (<["speakers" := PList [PStr "A"; PStr "B"]]>
            (<["tokens" := PList [PStr "Hi"; PStr "Bob"]]> grouped_record)).
Proof.
  split; [reflexivity|]. split; [reflexivity|].
  pose proof (prepare_for_encode_priority concat_lists whole_text
                grouped_record) as (_ & _ & Hsent & _).
  exact (Hsent _ _ eq_refl eq_refl eq_refl eq_refl).
Defined.


Lemma prepare_after_read_line_witness :
  let doc : example := {[ "text" := PStr "" ]} in
  let out := doc ∪ line_defaults 0 in
  read_line 0 doc = Ok out
  ∧ prepare_for_encode concat_lists whole_text out = Raise ValueError
  ∧ is_Some (out !! "speakers")
  ∧ has_content out "text" = false.
Proof.
  cbv zeta.
  assert (read_line 0 {[ "text" := PStr "" ]}
          = Ok ({[ "text" := PStr "" ]} ∪ line_defaults 0)) as Hread
    by reflexivity.
  assert (prepare_for_encode concat_lists whole_text
            ({[ "text" := PStr "" ]} ∪ line_defaults 0)
          = Raise ValueError) as Hprep by reflexivity.
  split; [exact Hread|]. split; [exact Hprep|].
  destruct (prepare_after_read_line concat_lists whole_text 0 _ _ Hread)
    as [Hfields Hraise].
  split.
  - apply Hfields. unfold record_fields. rewrite !elem_of_cons. auto 10.
  - by destruct (Hraise ValueError Hprep) as (_ & _ & _ & H).
Defined.

Lemma prepare_keeps_other_fields_witness :
  ∃ ex', prepare_for_encode concat_lists whole_text grouped_record = Ok ex'
         ∧ ex' !! "text" = grouped_record !! "text"
         ∧ is_Some (ex' !! "tokens").
Proof.
  destruct (prepare_for_encode concat_lists whole_text grouped_record)
    as [ex'|e] eqn:Hex; [|by vm_compute in Hex].
  exists ex'. split; [reflexivity|].
  destruct (prepare_keeps_other_fields concat_lists whole_text _ _ Hex)
    as (Htok & Hkeep & _).
  split; [by apply Hkeep | exact Htok].
Defined.

End NormalizeFacts.

(** ** The batch cache *)

Module BatchCacheFacts.
Import BatchCache.

Lemma string_app_inv_head (s a b : string) : s +:+ a = s +:+ b → a = b.
Proof.
  induction s as [|c s IH]; cbn; [done|]. intros [= H]. by apply IH.
Qed.

Section Protocol.

Variable Hasher_hash : pyval → string.
Variable path_join : string → string → string.
Variable Dataset : Type.
Variable Disk : Type.
Variable load_from_disk : Disk → string → result Dataset.
Variable from_dict : gmap string (list pyval) → result Dataset.
Variable save_to_disk : Disk → string → Dataset → Disk * result unit.

Abbreviation run_create_batches :=
  (create_batches Hasher_hash path_join Dataset Disk
     load_from_disk from_dict save_to_disk).
Abbreviation run_recompute :=
  (recompute Dataset Disk from_dict save_to_disk).
Abbreviation path_of := (dataset_path_of Hasher_hash path_join).

(** Appending the fields of an association list with distinct keys. *)
Lemma append_fields_lookup (l : list (string * pyval))
    (d : gmap string (list pyval)) (k : string) :
  NoDup l.*1 →
  (∀ v, (k, v) ∈ l →
        foldl append_field d l !! k = Some (default [] (d !! k) ++ [v]))
  ∧ (k ∉ l.*1 → foldl append_field d l !! k = d !! k).
Proof.
  revert d. induction l as [|[k' v'] l IH]; intros d Hnd.
  - split; [by intros v ?%elem_of_nil | done].
  - apply NoDup_cons in Hnd as [Hk' Hnd]. cbn [foldl].
    destruct (IH (append_field d (k', v')) Hnd) as [IHin IHout].
    unfold append_field in *. cbn [fst snd] in *. split.
    + intros v [[= -> ->]|Hin]%elem_of_cons.
      * rewrite IHout by done. by rewrite lookup_insert_eq.
      * assert (k ≠ k') as Hne.
        { intros ->. apply Hk'. apply list_elem_of_fmap.
          by exists (k', v). }
        rewrite (IHin v Hin). by rewrite lookup_insert_ne.
    + intros Hout. apply not_elem_of_cons in Hout as [Hne Hout].
      rewrite IHout by done. by rewrite lookup_insert_ne.
Qed.


(** Lines 152-153 on one batch: every field of the batch is appended to its
    column, the other columns stay as they are. *)
Lemma collect_batch_lookup (d : gmap string (list pyval)) (b : batch)
    (k : string) :
  collect_batch d b !! k
  = match b !! k with
    | Some v => Some (default [] (d !! k) ++ [v])
    | None => d !! k
    end.
Proof.
  unfold collect_batch.
  destruct (append_fields_lookup (map_to_list b) d k) as [Hin Hout].
  { apply NoDup_fst_map_to_list. }
  destruct (b !! k) as [v|] eqn:Hk.
  - apply Hin. by apply elem_of_map_to_list.
  - apply Hout. intros ([k' v] & [= <-] & Hv%elem_of_map_to_list)%list_elem_of_fmap.
    cbn in Hv. congruence.
Qed.

(** A column after more batches: the values the batches hold for that field,
    in batch order, behind what the column held before. *)
Lemma collect_from_lookup (bs : list batch) (d : gmap string (list pyval))
    (k : string) :
  foldl collect_batch d bs !! k
  = match omap (λ b : batch, b !! k) bs with
    | [] => d !! k
    | vs => Some (default [] (d !! k) ++ vs)
    end.
Proof.
  revert d. induction bs as [|b bs IH]; intros d; [done|].
  cbn [foldl]. rewrite IH, collect_batch_lookup.
  change (omap (λ b0 : batch, b0 !! k) (b :: bs))
    with (match b !! k with
          | Some v => v :: omap (λ b0 : batch, b0 !! k) bs
          | None => omap (λ b0 : batch, b0 !! k) bs
          end).
  destruct (b !! k) as [v|]; [|done].
  destruct (omap _ bs) as [|v' vs]; [done|].
  cbn [from_option id]. by rewrite <- app_assoc.
Qed.

(** Each field of the collection is the list of that field's values, one
    per batch that has it, in batch order. *)
Lemma collect_lookup (bs : list batch) (k : string) :
  collect bs !! k
  = match omap (λ b : batch, b !! k) bs with
    | [] => None
    | vs => Some vs
    end.
Proof.
  unfold collect. rewrite collect_from_lookup, lookup_empty.
  by destruct (omap _ bs).
Qed.

(** C7. When the collator passes neither [isinstance] test,
    [create_batches] raises [NotImplementedError] and the world is left as
    it was: no load, no iteration of the sampler, no dataset built, nothing
    saved. *)
Theorem C7_unsupported_collator_raises_first
    (s : sampler) (dataset_files : pyval) (cache_dir : string)
    (w : world Disk) :
  isinstance_LeftOversCollator (sampler_collator s) = false →
  isinstance_PadCollator (sampler_collator s) = false →
  run_create_batches s dataset_files cache_dir w
  = (Raise NotImplementedError, w).
Proof.
  intros Hleft Hpad.
  unfold create_batches, bind, lift, collator_key.
  by rewrite Hleft, Hpad.
Qed.

(** Equal cache keys for two key strings that differ can only come from a
    collision of the fingerprint function. *)
Lemma equal_cache_keys_collide (key1 key2 : string) :
  key1 ≠ key2 →
  cache_key_of Hasher_hash key1 = cache_key_of Hasher_hash key2 →
  ∃ a b, a ≠ b ∧ Hasher_hash (PStr a) = Hasher_hash (PStr b).
Proof. intros Hne Heq. by exists key1, key2. Qed.

(** X18. The key string built before the second fingerprint is decided by
    the first [isinstance] test that passes: a collator that passes the
    [LeftOversCollator] test gets the suffix [_segment_collator] whether or
    not it also passes the [PadCollator] test, one that passes only the
    [PadCollator] test gets [_longformer_collator]. For one document source
    the two key strings differ, whatever the fingerprint function is, so
    the two cache keys are the digests of two different strings. *)
Theorem collator_key_strings_differ
    (c1 c2 : collator) (dataset_files : pyval) :
  isinstance_LeftOversCollator c1 = true →
  isinstance_LeftOversCollator c2 = false →
  isinstance_PadCollator c2 = true →
  collator_key Hasher_hash c1 dataset_files
  = Ok (Hasher_hash dataset_files +:+ "_segment_collator")
  ∧ collator_key Hasher_hash c2 dataset_files
    = Ok (Hasher_hash dataset_files +:+ "_longformer_collator")
  ∧ Hasher_hash dataset_files +:+ "_segment_collator"
    ≠ Hasher_hash dataset_files +:+ "_longformer_collator"
  ∧ (cache_key_of Hasher_hash
       (Hasher_hash dataset_files +:+ "_segment_collator")
     = cache_key_of Hasher_hash
         (Hasher_hash dataset_files +:+ "_longformer_collator") →
     ∃ a b, a ≠ b ∧ Hasher_hash (PStr a) = Hasher_hash (PStr b)).
Proof.
  intros H1 H2 H3. unfold collator_key. rewrite H1, H2, H3.
  do 2 (split; [done|]).
  assert (Hasher_hash dataset_files +:+ "_segment_collator"
          ≠ Hasher_hash dataset_files +:+ "_longformer_collator") as Hne.
  { by intros ?%string_app_inv_head. }
  split; [done|]. by apply equal_cache_keys_collide.
Qed.

(** Under a fingerprint function that maps distinct strings to distinct
    digests, the cache keys of the two collator variants differ as well, and
    so do the cache paths under a cache directory in which distinct names
    give distinct paths. *)
Lemma distinct_keys_under_injective_fingerprint
    (c1 c2 : collator) (dataset_files : pyval) :
  isinstance_LeftOversCollator c1 = true →
  isinstance_LeftOversCollator c2 = false →
  isinstance_PadCollator c2 = true →
  ∃ key1 key2,
    collator_key Hasher_hash c1 dataset_files = Ok key1
    ∧ collator_key Hasher_hash c2 dataset_files = Ok key2
    ∧ key1 = Hasher_hash dataset_files +:+ "_segment_collator"
    ∧ key2 = Hasher_hash dataset_files +:+ "_longformer_collator"
    ∧ key1 ≠ key2
    ∧ ((∀ a b, Hasher_hash (PStr a) = Hasher_hash (PStr b) → a = b) →
       cache_key_of Hasher_hash key1 ≠ cache_key_of Hasher_hash key2
       ∧ ∀ cache_dir,
           (∀ a b, path_join cache_dir a = path_join cache_dir b → a = b) →
           path_of cache_dir key1 ≠ path_of cache_dir key2).
Proof.
  intros H1 H2 H3. unfold collator_key. rewrite H1, H2, H3.
  do 2 eexists. do 4 (split; [done|]).
  assert (Hasher_hash dataset_files +:+ "_segment_collator"
          ≠ Hasher_hash dataset_files +:+ "_longformer_collator") as Hne.
  { by intros ?%string_app_inv_head. }
  split; [done|]. intros Hinj.
  assert (cache_key_of Hasher_hash
            (Hasher_hash dataset_files +:+ "_segment_collator")
          ≠ cache_key_of Hasher_hash
              (Hasher_hash dataset_files +:+ "_longformer_collator"))
    as Hkeys.
  { intros Heq. by apply Hne, Hinj. }
  split; [done|]. intros cache_dir Hjoin Heq. by apply Hkeys, Hjoin.
Qed.

(** [create_batches] once the collator is known to be supported. *)
Lemma create_batches_supported
    (s : sampler) (dataset_files : pyval) (cache_dir key : string)
    (w : world Disk) :
  collator_key Hasher_hash (sampler_collator s) dataset_files = Ok key →
  let path := path_of cache_dir key in
  run_create_batches s dataset_files cache_dir w
  = match load_from_disk (disk w) path with
    | Ok ds => (Ok ds, emit (EvLoad path) w)
    | Raise e =>
        if decide (e = FileNotFoundError)
        then run_recompute s path (emit (EvLoad path) w)
        else (Raise e, emit (EvLoad path) w)
    end.
Proof.
  intros Hkey path.
  unfold create_batches, bind, lift. by rewrite Hkey.
Qed.

(** The body of the [except] clause, step by step. *)
Lemma recompute_steps (s : sampler) (path : string) (w : world Disk) :
  run_recompute s path w
  = let w2 := World (disk w) (trace w ++ [EvIterate; EvFromDict]) in
    match from_dict (collect (sampler_batches s)) with
    | Raise e => (Raise e, w2)
    | Ok ds =>
        let '(d', r) := save_to_disk (disk w) path ds in
        (match r with Ok _ => Ok ds | Raise e => Raise e end,
         World d' (trace w ++ [EvIterate; EvFromDict; EvSave path]))
    end.
Proof.
  unfold recompute, bind, iterate, build, save, ret, emit. cbn.
  rewrite <- !app_assoc. cbn.
  destruct (from_dict _) as [ds|e]; [|done].
  destruct (save_to_disk _ _ _) as [d' [[]|e]]; by rewrite <- ?app_assoc.
Qed.

(** C9. With a supported collator, [create_batches] first loads from the
    cache path. A dataset that loads is returned as it is, with nothing else
    done. A load that raises anything but [FileNotFoundError] raises the same
    to the caller. Only [FileNotFoundError] is handled: the sampler is run to
    its end, each field's values are gathered in batch order, the dataset
    built from them is saved under the cache path and returned; an exception
    raised while building or saving is not caught. *)
Theorem C9_lookup_store_protocol
    (s : sampler) (dataset_files : pyval) (cache_dir key : string)
    (w : world Disk) :
  collator_key Hasher_hash (sampler_collator s) dataset_files = Ok key →
  let path := path_of cache_dir key in
  let cols := collect (sampler_batches s) in
  (∀ ds, load_from_disk (disk w) path = Ok ds →
         run_create_batches s dataset_files cache_dir w
         = (Ok ds, World (disk w) (trace w ++ [EvLoad path])))
  ∧ (∀ e, load_from_disk (disk w) path = Raise e →
          e ≠ FileNotFoundError →
          run_create_batches s dataset_files cache_dir w
          = (Raise e, World (disk w) (trace w ++ [EvLoad path])))
  ∧ (∀ k, cols !! k
          = match omap (λ b : batch, b !! k) (sampler_batches s) with
            | [] => None
            | vs => Some vs
            end)
  ∧ (∀ e, load_from_disk (disk w) path = Raise FileNotFoundError →
          from_dict cols = Raise e →
          run_create_batches s dataset_files cache_dir w
          = (Raise e,
             World (disk w)
                   (trace w ++ [EvLoad path; EvIterate; EvFromDict])))
  ∧ (∀ ds d' r, load_from_disk (disk w) path = Raise FileNotFoundError →
          from_dict cols = Ok ds →
          save_to_disk (disk w) path ds = (d', r) →
          run_create_batches s dataset_files cache_dir w
          = (match r with Ok _ => Ok ds | Raise e => Raise e end,
             World d' (trace w ++ [EvLoad path; EvIterate; EvFromDict;
                                   EvSave path]))).
Proof.
  intros Hkey path cols.
  rewrite (create_batches_supported _ _ _ _ w Hkey). fold path.
  unfold emit. split; [|split; [|split; [|split]]].
  - by intros ds ->.
  - intros e -> Hne. by rewrite decide_False.
  - apply collect_lookup.
  - intros e -> Hbuild. rewrite decide_True by done.
    rewrite recompute_steps. fold cols. rewrite Hbuild. cbn.
    by rewrite <- app_assoc.
  - intros ds d' r -> Hbuild Hsave. rewrite decide_True by done.
    rewrite recompute_steps. fold cols. rewrite Hbuild. cbn.
    rewrite Hsave. by rewrite <- app_assoc.
Qed.


(** *** Reuse of the cache *)

(** X14. Over a persistence layer in which a dataset saved under a path is
    what a later load of that path returns, a call of [create_batches] that
    returned a dataset is followed by a call that returns the same dataset
    and does nothing but one load: the sampler is not run again and nothing
    is saved. *)
Theorem create_batches_second_call_reuses
    (s : sampler) (dataset_files : pyval) (cache_dir key : string)
    (w w' : world Disk) (ds : Dataset) :
  (∀ d p x d', save_to_disk d p x = (d', Ok ()) →
               load_from_disk d' p = Ok x) →
  collator_key Hasher_hash (sampler_collator s) dataset_files = Ok key →
  run_create_batches s dataset_files cache_dir w = (Ok ds, w') →
  run_create_batches s dataset_files cache_dir w'
  = (Ok ds, World (disk w')
                  (trace w' ++ [EvLoad (path_of cache_dir key)])).
Proof.
  intros Hround Hkey.
  rewrite !(create_batches_supported _ _ _ _ _ Hkey). cbv zeta.
  set (path := path_of cache_dir key).
  destruct (load_from_disk (disk w) path) as [ds0|e] eqn:Hload.
  - intros [= <- <-]. cbn [disk emit]. by rewrite Hload.
  - destruct (decide (e = FileNotFoundError)) as [->|]; [|done].
    rewrite recompute_steps. cbv zeta.
    destruct (from_dict _) as [ds1|e]; [|done]. cbn [disk emit].
    destruct (save_to_disk (disk w) path ds1) as [d' [[]|e]] eqn:Hsave;
      [|done].
    intros [= <- <-]. cbn [disk]. by rewrite (Hround _ _ _ _ Hsave).
Qed.

(** X15. Over a persistence layer in which a save under one path leaves
    loads of other paths as they were, a call for one collator does not
    serve a later call for a collator with another cache path: if that path
    was absent before the first call, the second call still runs its own
    sampler and builds its own batches. *)
Theorem create_batches_other_collator_recomputes
    (s1 s2 : sampler) (dataset_files : pyval) (cache_dir key1 key2 : string)
    (w w1 : world Disk) (r1 : result Dataset) :
  (∀ d p x d' r p', save_to_disk d p x = (d', r) → p' ≠ p →
                    load_from_disk d' p' = load_from_disk d p') →
  collator_key Hasher_hash (sampler_collator s1) dataset_files = Ok key1 →
  collator_key Hasher_hash (sampler_collator s2) dataset_files = Ok key2 →
  path_of cache_dir key2 ≠ path_of cache_dir key1 →
  load_from_disk (disk w) (path_of cache_dir key2)
  = Raise FileNotFoundError →
  run_create_batches s1 dataset_files cache_dir w = (r1, w1) →
  run_create_batches s2 dataset_files cache_dir w1
  = run_recompute s2 (path_of cache_dir key2)
      (emit (EvLoad (path_of cache_dir key2)) w1).
Proof.
  intros Hframe Hkey1 Hkey2 Hpaths Hmiss.
  rewrite (create_batches_supported _ _ _ _ _ Hkey1),
          (create_batches_supported _ _ _ _ _ Hkey2). cbv zeta.
  set (path1 := path_of cache_dir key1) in *.
  set (path2 := path_of cache_dir key2) in *.
  intros Hrun.
  assert (load_from_disk (disk w1) path2 = Raise FileNotFoundError)
    as Hmiss1.
  { destruct (load_from_disk (disk w) path1) as [ds0|e].
    - by injection Hrun as _ <-.
    - destruct (decide (e = FileNotFoundError)) as [->|];
        [|by injection Hrun as _ <-].
      rewrite recompute_steps in Hrun. cbv zeta in Hrun.
      destruct (from_dict _) as [ds1|e]; [|by injection Hrun as _ <-].
      cbn [disk emit] in Hrun.
      destruct (save_to_disk (disk w) path1 ds1) as [d' r] eqn:Hsave.
      injection Hrun as _ <-. cbn [disk].
      by rewrite (Hframe _ _ _ _ _ path2 Hsave Hpaths). }
  rewrite Hmiss1. by rewrite decide_True.
Qed.

Lemma omap_all_some {A B} (f : A → option B) (l : list A) :
  Forall (λ x, is_Some (f x)) l → Some <$> omap f l = f <$> l.
Proof.
  induction 1 as [|x l [y Hy] _ IH]; [done|].
  cbn. rewrite Hy. cbn. by rewrite IH.
Qed.

(** X16. When every batch has the field [k], the collection holds for [k]
    one value per batch, and the value at index [j] is the value of the
    field in batch [j]. *)
Theorem collect_column_reads_back (bs : list batch) (k : string) :
  bs ≠ [] →
  Forall (λ b : batch, is_Some (b !! k)) bs →
  ∃ vs, collect bs !! k = Some vs
        ∧ length vs = length bs
        ∧ ∀ j b, bs !! j = Some b → b !! k = vs !! j.
Proof.
  intros Hne Hall. pose proof (omap_all_some _ _ Hall) as Hvs.
  exists (omap (λ b : batch, b !! k) bs).
  assert (length (omap (λ b : batch, b !! k) bs) = length bs) as Hlen.
  { apply (f_equal length) in Hvs. by rewrite !length_fmap in Hvs. }
  split; [|split; [done|]].
  - rewrite collect_lookup.
    destruct (omap _ bs) as [|v vs] eqn:Hom; [|done].
    destruct bs; [done | discriminate Hlen].
  - intros j b Hb.
    apply (f_equal (λ l, l !! j)) in Hvs.
    rewrite !list_lookup_fmap, Hb in Hvs. cbn in Hvs.
    destruct (omap _ bs !! j) as [v|]; cbn in Hvs; congruence.
Qed.

Lemma length_omap_filter {A B} (f : A → option B) (l : list A) :
  length (omap f l) = length (filter (λ x, is_Some (f x)) l).
Proof.
  induction l as [|x l IH]; [done|].
  rewrite filter_cons.
  destruct (decide (is_Some (f x))) as [[y Hy]|Hn].
  - cbn. rewrite Hy. cbn. by rewrite IH.
  - cbn. destruct (f x) as [y|] eqn:Hx; [|done].
    exfalso. apply Hn. by eexists.
Qed.

(** X17. The collection has a column for a field exactly when some batch
    has the field, and the column has one value for each batch that has
    it: batches with different field sets give columns of different
    lengths. *)
Theorem collect_column_length (bs : list batch) (k : string) :
  (is_Some (collect bs !! k)
   ↔ Exists (λ b : batch, is_Some (b !! k)) bs)
  ∧ length (default [] (collect bs !! k))
    = length (filter (λ b : batch, is_Some (b !! k)) bs).
Proof.
  rewrite collect_lookup, <- length_omap_filter. split.
  - induction bs as [|b bs IH]; cbn.
    + split; [by intros [? [=]] | by inversion 1].
    + destruct (b !! k) as [v|] eqn:Hb; cbn.
      * split; [|by eexists]. intros _. apply Exists_cons_hd.
        by rewrite Hb.
      * rewrite IH. split; [by apply Exists_cons_tl|].
        inversion 1 as [?? [? Hk]|]; [congruence | done].
  - by destruct (omap _ bs).
Qed.

End Protocol.


Lemma tag_hash_inj (a b : string) :
  tag_hash (PStr a) = tag_hash (PStr b) → a = b.
Proof. apply string_app_inv_head. Qed.

Lemma C7_unsupported_collator_raises_first_witness :
  isinstance_LeftOversCollator (sampler_collator other_sampler) = false
  ∧ isinstance_PadCollator (sampler_collator other_sampler) = false
  ∧ create_batches tag_hash slash_join _ _ mem_load mem_from_dict mem_save
      other_sampler (PStr "train.jsonlines") "cache" empty_world
    = (Raise NotImplementedError, empty_world).
Proof.
  split; [reflexivity|]. split; [reflexivity|].
  apply C7_unsupported_collator_raises_first; reflexivity.
Defined.

Lemma collator_key_strings_differ_witness :
  isinstance_LeftOversCollator (sampler_collator segment_sampler) = true
  ∧ isinstance_LeftOversCollator (sampler_collator longformer_sampler) = false
  ∧ isinstance_PadCollator (sampler_collator longformer_sampler) = true
  ∧ tag_hash (PStr "train.jsonlines") +:+ "_segment_collator"
    ≠ tag_hash (PStr "train.jsonlines") +:+ "_longformer_collator".
Proof.
  split; [reflexivity|]. split; [reflexivity|]. split; [reflexivity|].
  destruct (collator_key_strings_differ tag_hash
              (sampler_collator segment_sampler)
              (sampler_collator longformer_sampler)
              (PStr "train.jsonlines") eq_refl eq_refl eq_refl)
    as (_ & _ & Hne & _).
  exact Hne.
Defined.

Lemma slash_join_inj (dir a b : string) :
  slash_join dir a = slash_join dir b → a = b.
Proof.
  unfold slash_join. by intros ?%string_app_inv_head%string_app_inv_head.
Qed.

Lemma distinct_keys_under_injective_fingerprint_instance :
  isinstance_LeftOversCollator (sampler_collator segment_sampler) = true
  ∧ isinstance_LeftOversCollator (sampler_collator longformer_sampler) = false
  ∧ isinstance_PadCollator (sampler_collator longformer_sampler) = true
  ∧ (∀ a b, tag_hash (PStr a) = tag_hash (PStr b) → a = b)
  ∧ dataset_path_of tag_hash slash_join "cache"
      (tag_hash (PStr "train.jsonlines") +:+ "_segment_collator")
    ≠ dataset_path_of tag_hash slash_join "cache"
        (tag_hash (PStr "train.jsonlines") +:+ "_longformer_collator").
Proof.
  split; [reflexivity|]. split; [reflexivity|]. split; [reflexivity|].
  split; [exact tag_hash_inj|].
  destruct (distinct_keys_under_injective_fingerprint tag_hash slash_join
              (sampler_collator segment_sampler)
              (sampler_collator longformer_sampler)
              (PStr "train.jsonlines") eq_refl eq_refl eq_refl)
    as (key1 & key2 & _ & _ & -> & -> & _ & Hkeys).
  destruct (Hkeys tag_hash_inj) as [_ Hpaths].
  exact (Hpaths "cache" (slash_join_inj "cache")).
Defined.

Lemma C9_lookup_store_protocol_witness :
  let key := "s:train.jsonlines_segment_collator" in
  let path := "cache/s:" +:+ key in
  let ds := collect two_batches in
  collator_key tag_hash (sampler_collator segment_sampler)
    (PStr "train.jsonlines") = Ok key
  ∧ mem_load (disk empty_world) path = Raise FileNotFoundError
  ∧ mem_from_dict ds = Ok ds
  ∧ mem_save (disk empty_world) path ds = ({[ path := ds ]}, Ok ())
  ∧ create_batches tag_hash slash_join _ _ mem_load mem_from_dict mem_save
      segment_sampler (PStr "train.jsonlines") "cache" empty_world
    = (Ok ds,
       World {[ path := ds ]}
             [EvLoad path; EvIterate; EvFromDict; EvSave path]).
Proof.
  cbv zeta. do 4 (split; [reflexivity|]).
  pose proof (C9_lookup_store_protocol tag_hash slash_join _ _
                mem_load mem_from_dict mem_save
                segment_sampler (PStr "train.jsonlines") "cache"
                "s:train.jsonlines_segment_collator" empty_world eq_refl)
    as (_ & _ & _ & _ & Hstore).
  exact (Hstore (collect two_batches) _ (Ok ()) eq_refl eq_refl eq_refl).
Defined.


(** The in-memory layer returns what was saved and keeps other paths. *)
Lemma mem_save_load (d : mem_disk) (p : string) (x : mem_dataset)
    (d' : mem_disk) :
  mem_save d p x = (d', Ok ()) → mem_load d' p = Ok x.
Proof.
  intros [= <-]. unfold mem_load. by rewrite lookup_insert_eq.
Qed.

Lemma mem_save_frame (d : mem_disk) (p : string) (x : mem_dataset)
    (d' : mem_disk) (r : result unit) (p' : string) :
  mem_save d p x = (d', r) → p' ≠ p → mem_load d' p' = mem_load d p'.
Proof.
  intros [= <- _] Hne. unfold mem_load. by rewrite lookup_insert_ne.
Qed.

Lemma create_batches_second_call_reuses_witness :
  let key := "s:train.jsonlines_segment_collator" in
  let path := "cache/s:" +:+ key in
  let ds := collect two_batches in
  let w' : world mem_disk :=
    World {[ path := ds ]}
          [EvLoad path; EvIterate; EvFromDict; EvSave path] in
  collator_key tag_hash (sampler_collator segment_sampler)
    (PStr "train.jsonlines") = Ok key
  ∧ create_batches tag_hash slash_join _ _ mem_load mem_from_dict mem_save
      segment_sampler (PStr "train.jsonlines") "cache" empty_world
    = (Ok ds, w')
  ∧ create_batches tag_hash slash_join _ _ mem_load mem_from_dict mem_save
      segment_sampler (PStr "train.jsonlines") "cache" w'
    = (Ok ds, World (disk w') (trace w' ++ [EvLoad path])).
Proof.
  cbv zeta.
  assert (create_batches tag_hash slash_join _ _
            mem_load mem_from_dict mem_save
            segment_sampler (PStr "train.jsonlines") "cache" empty_world
          = (Ok (collect two_batches),
             World {[ "cache/s:s:train.jsonlines_segment_collator"
                      := collect two_batches ]}
                   [EvLoad "cache/s:s:train.jsonlines_segment_collator";
                    EvIterate; EvFromDict;
                    EvSave "cache/s:s:train.jsonlines_segment_collator"]))
    as Hfirst by (vm_compute; reflexivity).
  split; [reflexivity|]. split; [exact Hfirst|].
  exact (create_batches_second_call_reuses tag_hash slash_join _ _
           mem_load mem_from_dict mem_save
           segment_sampler (PStr "train.jsonlines") "cache"
           "s:train.jsonlines_segment_collator" _ _ _
           mem_save_load eq_refl Hfirst).
Defined.

Lemma create_batches_other_collator_recomputes_witness :
  let path2 := "cache/s:s:train.jsonlines_longformer_collator" in
  ∃ r1 w1,
    create_batches tag_hash slash_join _ _ mem_load mem_from_dict mem_save
      segment_sampler (PStr "train.jsonlines") "cache" empty_world
    = (r1, w1)
    ∧ mem_load (disk empty_world) path2 = Raise FileNotFoundError
    ∧ create_batches tag_hash slash_join _ _ mem_load mem_from_dict mem_save
        longformer_sampler (PStr "train.jsonlines") "cache" w1
      = recompute _ _ mem_from_dict mem_save longformer_sampler path2
          (emit (EvLoad path2) w1).
Proof.
  cbv zeta.
  destruct (create_batches tag_hash slash_join _ _
              mem_load mem_from_dict mem_save
              segment_sampler (PStr "train.jsonlines") "cache" empty_world)
    as [r1 w1] eqn:Hfirst.
  exists r1, w1. split; [reflexivity|]. split; [reflexivity|].
  apply (create_batches_other_collator_recomputes tag_hash slash_join _ _
           mem_load mem_from_dict mem_save
           segment_sampler longformer_sampler (PStr "train.jsonlines")
           "cache" "s:train.jsonlines_segment_collator"
           "s:train.jsonlines_longformer_collator" empty_world w1 r1
           mem_save_frame eq_refl eq_refl);
    [by vm_compute | reflexivity | exact Hfirst].
Defined.

Lemma collect_column_reads_back_witness :
  two_batches ≠ []
  ∧ Forall (λ b : batch, is_Some (b !! "length")) two_batches
  ∧ ∃ vs, collect two_batches !! "length" = Some vs ∧ length vs = 2.
Proof.
  assert (two_batches ≠ []) as Hne by (unfold two_batches; discriminate).
  assert (Forall (λ b : batch, is_Some (b !! "length")) two_batches)
    as Hall.
  { unfold two_batches.
    apply Forall_cons_2; [exists (PInt 2); reflexivity|].
    apply Forall_cons_2; [exists (PInt 1); reflexivity|].
    apply Forall_nil_2. }
  split; [exact Hne|]. split; [exact Hall|].
  destruct (collect_column_reads_back two_batches "length" Hne Hall)
    as (vs & Hvs & Hlen & _).
  exists vs. split; [exact Hvs | exact Hlen].
Defined.

End BatchCacheFacts.
